(** * presidio_summarizer.py: consolidation of PII detections

    A shallow embedding of [presidio_analyzer/presidio_summarizer.py]
    (class [PresidioSummarizer] and the function [summarize_pii_batch]),
    followed by the properties of the overlap merger, the adjacency
    merger and the batch aggregator.

    Conventions of the embedding.
    - Python [int] is [Z]; Python [float] is the IEEE 754 binary64 type
      [float] of the kernel, so [+], [/], [<] and unary minus on scores
      are the operations the interpreter performs.
    - Python [str] is [string]; one character is one [ascii], that is,
      texts are restricted to code points below 256.  On those the
      lexicographic order [String.ltb] is the order of [str.__lt__].
    - A [dict] subscripted with string keys is a [gmap string value]; a
      [set] of strings is a [gset string]; objects read through
      attributes ([result.start], [item.key]) are records.
    - An exception is an [Err] result. *)

From Stdlib Require Import ZArith String Ascii List Floats Uint63 Lia.
From Stdlib Require Import Sorting.Sorted Sorting.Permutation.
From Stdlib Require OrderedTypeEx.
From stdpp Require Import base tactics option list gmap strings sets fin_sets sorting.

Set Warnings "-inexact-float".
Set Default Proof Using "Type".

(** ** Exceptions and results *)

Inductive pyerr : Type :=
| KeyError (k : string)
| AttributeError (a : string)
| TypeError
| ZeroDivisionError.

Inductive result (A : Type) : Type :=
| Ok (a : A)
| Err (e : pyerr).
Arguments Ok {A} a.
Arguments Err {A} e.

#[global] Instance result_ret : MRet result := @Ok.
#[global] Instance result_bind : MBind result :=
  fun A B f m => match m with Ok a => f a | Err e => Err e end.
#[global] Instance result_fmap : FMap result :=
  fun A B f m => match m with Ok a => Ok (f a) | Err e => Err e end.

(** A [for] loop whose body may raise: the first exception ends it. *)
Fixpoint foldM `{MBind M, MRet M} {S A : Type} (body : S -> A -> M S)
    (s : S) (l : list A) : M S :=
  match l with
  | [] => mret s
  | x :: l' => s' ← body s x; foldM body s' l'
  end.

(** ** Python values held in the detection dictionaries *)

(** [AnalysisExplanation]: only its [textual_explanation] is read. *)
Record AnalysisExplanation : Type :=
  { textual_explanation : string }.

Inductive value : Type :=
| VInt (z : Z)
| VFloat (f : float)
| VStr (s : string)
| VObj (o : AnalysisExplanation).

(** The subscripts [d[k]] of the module.  A missing key raises
    [KeyError].  The fields have the types of the interface ([start] and
    [end] are [int], [score] is [float], the others [str]); a value of
    another type is outside the embedding and reported as [TypeError]. *)
Definition getitem (d : gmap string value) (k : string) : result value :=
  match d !! k with
  | Some v => Ok v
  | None => Err (KeyError k)
  end.

Definition as_int (v : value) : result Z :=
  match v with VInt z => Ok z | _ => Err TypeError end.
Definition as_float (v : value) : result float :=
  match v with VFloat f => Ok f | _ => Err TypeError end.
Definition as_str (v : value) : result string :=
  match v with VStr s => Ok s | _ => Err TypeError end.

(** [v.textual_explanation]: numbers and strings have no such attribute. *)
Definition getattr_textual_explanation (v : value) : result string :=
  match v with
  | VObj o => Ok (textual_explanation o)
  | _ => Err (AttributeError "textual_explanation")
  end.

Definition get_int (d : gmap string value) (k : string) : result Z :=
  getitem d k ≫= as_int.
Definition get_float (d : gmap string value) (k : string) : result float :=
  getitem d k ≫= as_float.
Definition get_str (d : gmap string value) (k : string) : result string :=
  getitem d k ≫= as_str.

(** ** Built-ins *)

(** [list.sort] and [sorted] are stable and compare with [<] only.  The
    embedding is the insertion sort that CPython runs on short lists,
    with a linear instead of a binary search for the insertion point:
    each element, taken from left to right, goes in front of the first
    element of the sorted prefix that it is smaller than.  Every stable
    sort returns this list when [<] is a strict weak order, which holds
    for the keys below as long as no score is NaN. *)
Section PySort.
Context {A : Type} (lt : A -> A -> bool).

Fixpoint insort (x : A) (l : list A) : list A :=
  match l with
  | [] => [x]
  | y :: l' => if lt x y then x :: y :: l' else y :: insort x l'
  end.

Definition py_sort (l : list A) : list A :=
  fold_left (fun acc x => insort x acc) l [].
End PySort.

(** Comparison of the 2-tuples [(int, float)] used as sort keys: the
    first position where the tuples differ (by [==]) decides by [<]. *)
Definition tuple_lt (a b : Z * float) : bool :=
  if negb (a.1 =? b.1)%Z then (a.1 <? b.1)%Z
  else if negb (PrimFloat.eqb a.2 b.2) then PrimFloat.ltb a.2 b.2
  else false.

(** [sep.join(l)]. *)
Definition join (sep : string) (l : list string) : string :=
  String.concat sep l.

(** [sorted(s)] for a set of strings.  The set is listed in some order
    and sorted; the result does not depend on that order
    ([py_sort_set_order] below), so stdpp's [elements] stands for it. *)
Definition sorted_set (s : gset string) : list string :=
  py_sort String.ltb (elements s).

(** [s.split(sep)] for a non-empty [sep]: the occurrences of [sep] are
    found from the left and do not overlap.  [skip] counts the characters
    of a separator still to be dropped, [cur] is the piece being read. *)
Fixpoint split_go (sep : string) (skip : nat) (cur : string) (s : string)
  : list string :=
  match s with
  | EmptyString => [cur]
  | String c s' =>
      match skip with
      | S k => split_go sep k cur s'
      | O =>
          if String.prefix sep s
          then cur :: split_go sep (String.length sep - 1) EmptyString s'
          else split_go sep 0 (String.append cur (String c EmptyString)) s'
      end
  end.

Definition split (s sep : string) : list string :=
  split_go sep 0 EmptyString s.

(** [str.isspace] on one character below 256. *)
Definition isspace (c : ascii) : bool :=
  let n := nat_of_ascii c in
  ((9 <=? n) && (n <=? 13)) || ((28 <=? n) && (n <=? 32))
  || (n =? 133) || (n =? 160).

Fixpoint lstrip (s : string) : string :=
  match s with
  | EmptyString => EmptyString
  | String c s' => if isspace c then lstrip s' else s
  end.

Definition string_rev (s : string) : string :=
  string_of_list_ascii (rev (list_ascii_of_string s)).

(** [s.strip()]. *)
Definition strip (s : string) : string :=
  string_rev (lstrip (string_rev (lstrip s))).

(** [s[lo:hi]]: a negative bound counts from the end, and both bounds
    are clipped to the string. *)
Definition slice_bound (len i : Z) : Z :=
  if (i <? 0)%Z then Z.max 0 (i + len) else Z.min i len.

Definition slice (s : string) (lo hi : Z) : string :=
  let len := Z.of_nat (String.length s) in
  let lo' := slice_bound len lo in
  let hi' := slice_bound len hi in
  String.substring (Z.to_nat lo') (Z.to_nat (hi' - lo')) s.

(** [a / n] for a float and an int: the int is converted to the nearest
    float, which [of_uint63] does for the numbers below [2^63]; the
    counts of the aggregator are lengths of lists. *)
Definition truediv (a : float) (n : Z) : result float :=
  if (n =? 0)%Z then Err ZeroDivisionError
  else Ok (PrimFloat.div a (PrimFloat.of_uint63 (Uint63.of_Z n))).

(** ** The records of the summarizer *)

(** The dictionaries [{'word', 'start', 'end', 'type', 'score',
    'explanation'}] that [merge_entities] builds, first as
    [flattened_predictions] and then as [merged_entities]. *)
Record Entity : Type := mkEntity
  { word : string;
    start : Z;
    end_ : Z;
    type : string;
    score : float;
    explanation : string }.

Definition entity_dict (e : Entity) : gmap string value :=
  <["word" := VStr (word e)]>
  (<["start" := VInt (start e)]>
  (<["end" := VInt (end_ e)]>
  (<["type" := VStr (type e)]>
  (<["score" := VFloat (score e)]>
  (<["explanation" := VStr (explanation e)]> ∅))))).

(** The dictionaries [summarize_pii] hands to [merge_entities]. *)
Definition prediction (w : string) (s e : Z) (t : string) (sc : float)
    (ex : string) : gmap string value :=
  <["word" := VStr w]>
  (<["start" := VInt s]>
  (<["end" := VInt e]>
  (<["entity_type" := VStr t]>
  (<["score" := VFloat sc]>
  (<["analysis_explanation" := VObj {| textual_explanation := ex |}]> ∅))))).

(** ** [PresidioSummarizer.merge_entities] *)

(** Lines 17-25: one flattened dictionary per prediction. *)
Definition flatten (entity : gmap string value) : result Entity :=
  w ← get_str entity "word";
  s ← get_int entity "start";
  e ← get_int entity "end";
  t ← get_str entity "entity_type";
  sc ← get_float entity "score";
  ex ← getitem entity "analysis_explanation" ≫= getattr_textual_explanation;
  Ok (mkEntity w s e t sc ex).

(** Line 27: [key=lambda x: (x['start'], -x['score'])]. *)
Definition sort_key (x : Entity) : Z * float :=
  (start x, PrimFloat.opp (score x)).

Definition key_lt (x y : Entity) : bool :=
  tuple_lt (sort_key x) (sort_key y).

(** Lines 30-34: the scalar variables of the sweep.  They are assigned
    together, so "[current_word is None]" is the state [None] of
    [sweep_step]; [current_explanation] is kept beside them. *)
Record current : Type := mkCurrent
  { current_word : string;
    current_start : Z;
    current_end : Z;
    current_type : string;
    current_score : float }.

(** Lines 39-43 and 63-67. *)
Definition first_of (entity : Entity) : current :=
  {| current_word := word entity;
     current_start := start entity;
     current_end := end_ entity;
     current_type := type entity;
     current_score := score entity |}.

(** Lines 47-51: [entity['score'] > current_score] replaces the end, the
    type and the score, and appends the word after a space. *)
Definition absorb (c : current) (entity : Entity) : current :=
  if PrimFloat.ltb (current_score c) (score entity)
  then {| current_word :=
            String.append (current_word c) (String.append " " (word entity));
          current_start := current_start c;
          current_end := end_ entity;
          current_type := type entity;
          current_score := score entity |}
  else c.

(** Lines 54-62 and 71-79. *)
Definition emit (c : current) (current_explanation : gset string) : Entity :=
  {| word := current_word c;
     start := current_start c;
     end_ := current_end c;
     type := current_type c;
     score := current_score c;
     explanation := join " and " (sorted_set current_explanation) |}.

(** Lines 37-68: one iteration, on [merged_entities] and the variables. *)
Definition sweep_step
    (st : list Entity * option (current * gset string)) (entity : Entity)
  : list Entity * option (current * gset string) :=
  match st.2 with
  | None => (st.1, Some (first_of entity, {[ explanation entity ]}))
  | Some (c, current_explanation) =>
      if (start entity <? current_end c)%Z
      then (st.1, Some (absorb c entity,
                        current_explanation ∪ {[ explanation entity ]}))
      else (st.1 ++ [emit c current_explanation],
            Some (first_of entity, {[ explanation entity ]}))
  end.

(** Lines 70-79: the cluster still open after the loop is closed. *)
Definition close_last (st : list Entity * option (current * gset string))
  : list Entity :=
  match st.2 with
  | None => st.1
  | Some (c, current_explanation) => st.1 ++ [emit c current_explanation]
  end.

(** Lines 29-81. *)
Definition sweep (flattened_predictions : list Entity) : list Entity :=
  close_last (fold_left sweep_step flattened_predictions ([], None)).

Definition merge_entities (predictions : list (gmap string value))
  : result (list (gmap string value)) :=
  flattened_predictions ← mapM flatten predictions;
  Ok (entity_dict <$> sweep (py_sort key_lt flattened_predictions)).

(** ** [PresidioSummarizer.merge_consecutive_entities] *)

(** Lines 95-100, on the copy [current_entity]. *)
Definition fuse (current_entity entity : gmap string value)
  : result (gmap string value) :=
  cw ← get_str current_entity "word";
  ew ← get_str entity "word";
  let c1 := <["word" := VStr (String.append cw ew)]> current_entity in
  ee ← get_int entity "end";
  let c2 := <["end" := VInt ee]> c1 in
  cs ← get_float c2 "score";
  es ← get_float entity "score";
  let c3 := <["score" := VFloat (PrimFloat.div (PrimFloat.add cs es) 2)]> c2 in
  cx ← get_str c3 "explanation";
  ex ← get_str entity "explanation";
  let current_explanation_set : gset string :=
    list_to_set (split cx " and ") in
  let new_explanation_set : gset string :=
    list_to_set (split ex " and ") in
  Ok (<["explanation" :=
          VStr (join " and "
                  (sorted_set (current_explanation_set ∪ new_explanation_set)))]>
        c3).

(** Line 94: [and] reads the second comparison only after the first. *)
Definition fusable (current_entity entity : gmap string value) : result bool :=
  et ← get_str entity "type";
  ct ← get_str current_entity "type";
  if String.eqb et ct
  then es ← get_int entity "start";
       ce ← get_int current_entity "end";
       Ok (es =? ce)%Z
  else Ok false.

(** Lines 92-103: one iteration, on [(merged_entities, current_entity)]. *)
Definition consecutive_step
    (st : list (gmap string value) * gmap string value)
    (entity : gmap string value)
  : result (list (gmap string value) * gmap string value) :=
  b ← fusable st.2 entity;
  if b : bool
  then current_entity ← fuse st.2 entity; Ok (st.1, current_entity)
  else Ok (st.1 ++ [st.2], entity).

Definition merge_consecutive_entities (entities : list (gmap string value))
  : result (list (gmap string value)) :=
  match entities with
  | [] => Ok []
  | first :: rest =>
      st ← foldM consecutive_step ([], first) rest;
      Ok (st.1 ++ [st.2])
  end.

(** ** [PresidioSummarizer.summarize_pii] *)

(** A [RecognizerResult] of the analyzer, read through attributes. *)
Module RecognizerResult.
Record t : Type := mk
  { start : Z;
    end_ : Z;
    entity_type : string;
    score : float;
    analysis_explanation : AnalysisExplanation }.
End RecognizerResult.

(** Lines 112-121. *)
Definition word_prediction (text : string) (result : RecognizerResult.t)
  : gmap string value :=
  let word :=
    strip (slice text (RecognizerResult.start result)
             (RecognizerResult.end_ result)) in
  <["word" := VStr word]>
  (<["start" := VInt (RecognizerResult.start result)]>
  (<["end" := VInt (RecognizerResult.end_ result)]>
  (<["entity_type" := VStr (RecognizerResult.entity_type result)]>
  (<["score" := VFloat (RecognizerResult.score result)]>
  (<["analysis_explanation" :=
       VObj (RecognizerResult.analysis_explanation result)]> ∅))))).

Definition summarize_pii (presidio_results : list RecognizerResult.t)
    (text : string) : result (list (gmap string value)) :=
  let word_predictions := word_prediction text <$> presidio_results in
  merged_entities ← merge_entities word_predictions;
  merge_consecutive_entities merged_entities.

(** ** [summarize_pii_batch] *)

(** A [DictAnalyzerResult] of the batch analyzer; [value] is read for
    its length only. *)
Module DictAnalyzerResult.
Record t : Type := mk
  { key : string;
    value : list string;
    recognizer_results : list (list RecognizerResult.t) }.
End DictAnalyzerResult.

(** The entries [{'total_score', 'count'}] of [pii_scores]. *)
Record score_entry : Type := mkScores
  { total_score : float;
    count : Z }.

(** One output dictionary [{'column', 'n', 'avg_scores', 'explanation'}]. *)
Module Summary.
Record t : Type := mk
  { column : string;
    n : Z;
    avg_scores : gmap string float;
    explanation : gmap string string }.
End Summary.

(** Lines 149-153. *)
Definition add_score (pii_scores : gmap string score_entry)
    (pii_type : string) (score : float) : gmap string score_entry :=
  match pii_scores !! pii_type with
  | Some scores =>
      <[pii_type := {| total_score := PrimFloat.add (total_score scores) score;
                       count := (count scores + 1)%Z |}]> pii_scores
  | None => <[pii_type := {| total_score := score; count := 1%Z |}]> pii_scores
  end.

(** Lines 155-158. *)
Definition add_explanation (pii_explanations : gmap string (gset string))
    (pii_type : string) (pii_explanation : string)
  : gmap string (gset string) :=
  match pii_explanations !! pii_type with
  | Some explanations =>
      <[pii_type := explanations ∪ {[ pii_explanation ]}]> pii_explanations
  | None => <[pii_type := {[ pii_explanation ]}]> pii_explanations
  end.

(** Lines 144-158: the body of the inner loop. *)
Definition accumulate
    (acc : gmap string score_entry * gmap string (gset string))
    (result : RecognizerResult.t)
  : gmap string score_entry * gmap string (gset string) :=
  let pii_type := RecognizerResult.entity_type result in
  let score := RecognizerResult.score result in
  let pii_explanation :=
    textual_explanation (RecognizerResult.analysis_explanation result) in
  (add_score acc.1 pii_type score,
   add_explanation acc.2 pii_type pii_explanation).

(** Lines 140-158: the two accumulators after both loops. *)
Definition accumulated (recognizer_results : list (list RecognizerResult.t))
  : gmap string score_entry * gmap string (gset string) :=
  fold_left (fun acc results => fold_left accumulate results acc)
    recognizer_results (∅, ∅).

(** Lines 161-162: the comprehension raises as soon as one division
    does. *)
Definition averages (pii_scores : gmap string score_entry)
  : result (gmap string float) :=
  list_to_map <$>
    mapM (fun kv : string * score_entry =>
            avg ← truediv (total_score kv.2) (count kv.2); Ok (kv.1, avg))
         (map_to_list pii_scores).

Section Batch.
(** The order in which a [set] of strings is iterated.  CPython derives
    it from the hashes of the strings, which change from one process to
    the next; the embedding takes it as a parameter. *)
Variable set_iter : gset string -> list string.

(** Lines 135-172: one group. *)
Definition summarize_item (item : DictAnalyzerResult.t) : result Summary.t :=
  let key := DictAnalyzerResult.key item in
  let value_list := DictAnalyzerResult.value item in
  let recognizer_results := DictAnalyzerResult.recognizer_results item in
  let acc := accumulated recognizer_results in
  pii_avg_scores ← averages acc.1;
  let pii_combined_explanations :=
    (fun explanations => join " and " (set_iter explanations)) <$> acc.2 in
  Ok {| Summary.column := key;
        Summary.n := Z.of_nat (length value_list);
        Summary.avg_scores := pii_avg_scores;
        Summary.explanation := pii_combined_explanations |}.

Definition summarize_pii_batch (presidio_results : list DictAnalyzerResult.t)
  : result (list Summary.t) :=
  mapM summarize_item presidio_results.
End Batch.

(** ** The same two methods on a store of objects

    Lists, dictionaries and sets are objects: a variable holds a
    reference, and [append], [d[k] = v] and [add] change the object that
    every holder of the reference sees.  [Store.merge_entities] and
    [Store.merge_consecutive_entities] follow the methods statement by
    statement on a heap of such objects; they are what the frame
    properties are about, and they return references to the lists that
    the functions above return ([store_merge_entities_refines],
    [store_merge_consecutive_refines]). *)
Module Store.

Definition loc : Type := nat.

Inductive object : Type :=
| ODict (d : gmap string value)
| OList (l : list loc)
| OSet (s : gset string).

(** A computation reads and writes the heap; an exception leaves the
    heap as it was when it was raised. *)
Definition M (A : Type) : Type :=
  gmap loc object -> result A * gmap loc object.

#[global] Instance M_ret : MRet M := fun A a h => (Ok a, h).
#[global] Instance M_bind : MBind M :=
  fun A B f m h =>
    match m h with
    | (Ok a, h') => f a h'
    | (Err e, h') => (Err e, h')
    end.

Definition lift {A : Type} (r : result A) : M A := fun h => (r, h).

(** A literal or a constructor call: a new object at an unused place. *)
Definition new (o : object) : M loc :=
  fun h => let l := fresh (dom h) in (Ok l, <[l := o]> h).

Definition load (l : loc) : M object :=
  fun h =>
    match h !! l with
    | Some o => (Ok o, h)
    | None => (Err TypeError, h)
    end.

Definition store (l : loc) (o : object) : M unit :=
  fun h => (Ok tt, <[l := o]> h).

Definition load_dict (l : loc) : M (gmap string value) :=
  o ← load l;
  match o with ODict d => mret d | _ => lift (Err TypeError) end.

Definition load_list (l : loc) : M (list loc) :=
  o ← load l;
  match o with OList xs => mret xs | _ => lift (Err TypeError) end.

Definition load_set (l : loc) : M (gset string) :=
  o ← load l;
  match o with OSet s => mret s | _ => lift (Err TypeError) end.

(** [d[k] = v]. *)
Definition dict_setitem (l : loc) (k : string) (v : value) : M unit :=
  d ← load_dict l; store l (ODict (<[k := v]> d)).

(** [d.copy()]. *)
Definition dict_copy (l : loc) : M loc :=
  d ← load_dict l; new (ODict d).

(** [xs.append(x)]. *)
Definition list_append (l : loc) (x : loc) : M unit :=
  xs ← load_list l; store l (OList (xs ++ [x])).

(** [s.add(x)]. *)
Definition set_add (l : loc) (x : string) : M unit :=
  s ← load_set l; store l (OSet (s ∪ {[ x ]})).

(** Lines 17-25: the body of the first loop. *)
Definition flatten_into (flattened_predictions entity : loc) : M unit :=
  d ← load_dict entity;
  e ← lift (flatten d);
  fresh_dict ← new (ODict (entity_dict e));
  list_append flattened_predictions fresh_dict.

(** Line 27: [sort] computes the key of every element, then permutes
    the list object in place. *)
Definition keyed (x : loc) : M ((Z * float) * loc) :=
  d ← load_dict x;
  s ← lift (get_int d "start");
  sc ← lift (get_float d "score");
  mret ((s, PrimFloat.opp sc), x).

Definition sort_in_place (l : loc) : M unit :=
  xs ← load_list l;
  ks ← mapM keyed xs;
  store l (OList ((py_sort (fun a b => tuple_lt a.1 b.1) ks).*2)).

(** The six subscripts of a flattened dictionary read in the sweep. *)
Definition as_entity (d : gmap string value) : result Entity :=
  w ← get_str d "word";
  s ← get_int d "start";
  e ← get_int d "end";
  t ← get_str d "type";
  sc ← get_float d "score";
  ex ← get_str d "explanation";
  Ok (mkEntity w s e t sc ex).

(** Lines 54-62 and 71-79. *)
Definition emit_into (merged_entities : loc) (c : current)
    (current_explanation : loc) : M unit :=
  s ← load_set current_explanation;
  d ← new (ODict (entity_dict (emit c s)));
  list_append merged_entities d.

(** Lines 38-68: the body of the sweep; the scalar variables are the
    loop state, with the reference held by [current_explanation]. *)
Definition sweep_body (merged_entities : loc) (cur : option (current * loc))
    (entity : loc) : M (option (current * loc)) :=
  d ← load_dict entity;
  e ← lift (as_entity d);
  match cur with
  | None =>
      s ← new (OSet {[ explanation e ]});
      mret (Some (first_of e, s))
  | Some (c, current_explanation) =>
      if (start e <? current_end c)%Z
      then set_add current_explanation (explanation e);;
           mret (Some (absorb c e, current_explanation))
      else emit_into merged_entities c current_explanation;;
           s ← new (OSet {[ explanation e ]});
           mret (Some (first_of e, s))
  end.

Definition merge_entities (predictions : loc) : M loc :=
  flattened_predictions ← new (OList []);
  ps ← load_list predictions;
  foldM (fun _ entity => flatten_into flattened_predictions entity) tt ps;;
  sort_in_place flattened_predictions;;
  merged_entities ← new (OList []);
  _ ← new (OSet ∅);
  fs ← load_list flattened_predictions;
  cur ← foldM (sweep_body merged_entities) None fs;
  match cur with
  | None => mret tt
  | Some (c, current_explanation) =>
      emit_into merged_entities c current_explanation
  end;;
  mret merged_entities.

(** Lines 95-100: every statement reads the two dictionaries again and
    writes one key of [current_entity]. *)
Definition fuse_into (current_entity entity : loc) : M unit :=
  c ← load_dict current_entity;
  cw ← lift (get_str c "word");
  e ← load_dict entity;
  ew ← lift (get_str e "word");
  dict_setitem current_entity "word" (VStr (String.append cw ew));;
  e ← load_dict entity;
  ee ← lift (get_int e "end");
  dict_setitem current_entity "end" (VInt ee);;
  c ← load_dict current_entity;
  cs ← lift (get_float c "score");
  e ← load_dict entity;
  es ← lift (get_float e "score");
  dict_setitem current_entity "score"
    (VFloat (PrimFloat.div (PrimFloat.add cs es) 2));;
  c ← load_dict current_entity;
  cx ← lift (get_str c "explanation");
  e ← load_dict entity;
  ex ← lift (get_str e "explanation");
  let current_explanation_set : gset string :=
    list_to_set (split cx " and ") in
  let new_explanation_set : gset string :=
    list_to_set (split ex " and ") in
  dict_setitem current_entity "explanation"
    (VStr (join " and "
             (sorted_set (current_explanation_set ∪ new_explanation_set)))).

(** Lines 93-103. *)
Definition consecutive_body (merged_entities : loc) (current_entity : loc)
    (entity : loc) : M loc :=
  e ← load_dict entity;
  c ← load_dict current_entity;
  b ← lift (fusable c e);
  if b : bool
  then fuse_into current_entity entity;; mret current_entity
  else list_append merged_entities current_entity;; dict_copy entity.

Definition merge_consecutive_entities (entities : loc) : M loc :=
  es ← load_list entities;
  match es with
  | [] => new (OList [])
  | first :: rest =>
      merged_entities ← new (OList []);
      current_entity ← dict_copy first;
      current_entity ← foldM (consecutive_body merged_entities)
                         current_entity rest;
      list_append merged_entities current_entity;;
      mret merged_entities
  end.

(** What a reference to a list of dictionaries denotes in a heap. *)
Definition dicts_at (h : gmap loc object) (xs : list loc)
    (ds : list (gmap string value)) : Prop :=
  Forall2 (fun x d => h !! x = Some (ODict d)) xs ds.

Definition list_at (h : gmap loc object) (l : loc)
    (ds : list (gmap string value)) : Prop :=
  exists xs, h !! l = Some (OList xs) /\ dicts_at h xs ds.

(** [l] is not an object of the heap [h0] in which a call started. *)
Definition fresh_in (h0 : gmap loc object) (l : loc) : Prop :=
  h0 !! l = None.

(** A list may be given to [new] or [store] when it holds new objects
    only. *)
Definition holds_fresh (h0 : gmap loc object) (o : object) : Prop :=
  match o with
  | OList xs => Forall (fresh_in h0) xs
  | _ => True
  end.

(** The heap [h] during a call that started in [h0]: every object of
    [h0] is still there with the contents it had, and the lists made
    since then hold objects made since then. *)
Definition frame_ok (h0 h : gmap loc object) : Prop :=
  (forall l o, h0 !! l = Some o -> h !! l = Some o)
  /\ (forall l xs, fresh_in h0 l -> h !! l = Some (OList xs) ->
       Forall (fresh_in h0) xs).

(** [m] keeps [frame_ok], also when it raises, and its results
    satisfy [Q]. *)
Definition safe {A : Type} (h0 : gmap loc object) (m : M A) (Q : A -> Prop)
  : Prop :=
  forall h, frame_ok h0 h ->
    frame_ok h0 (m h).2 /\ forall a, (m h).1 = Ok a -> Q a.

(** A reference paired with the record its dictionary holds. *)
Definition holds (h : gmap loc object) (p : loc * Entity) : Prop :=
  h !! p.1 = Some (ODict (entity_dict p.2)).

(** The loop state on the store denotes the loop state on values. *)
Definition cur_at (h : gmap loc object) (scur : option (current * loc))
    (cur : option (current * gset string)) : Prop :=
  match scur, cur with
  | None, None => True
  | Some (c, l), Some (c', ex) => c = c' /\ h !! l = Some (OSet ex)
  | _, _ => False
  end.

(** The output list and the loop state of the sweep on the store. *)
Definition sweep_at (h : gmap loc object) (merged : loc) (scur : option (current * loc))
    (st : list Entity * option (current * gset string)) : Prop :=
  (exists ml, h !! merged = Some (OList ml)
              /\ dicts_at h ml (entity_dict <$> st.1))
  /\ cur_at h scur st.2.

(** The loop state of the adjacency merger on the store. *)
Definition consecutive_at (h : gmap loc object) (merged cur : loc)
    (st : list (gmap string value) * gmap string value) : Prop :=
  (exists ml, h !! merged = Some (OList ml)
              /\ dicts_at h ml st.1 /\ Forall (fun x => x <> cur) ml)
  /\ h !! cur = Some (ODict st.2).

(** The set held by [current_explanation] was made during the call. *)
Definition sweep_inv (h0 : gmap loc object) (cur : option (current * loc))
  : Prop :=
  match cur with
  | Some (_, current_explanation) => fresh_in h0 current_explanation
  | None => True
  end.

End Store.

(** ** Vocabulary of the properties *)

(** An input record, as the dictionary [summarize_pii] would build. *)
Definition prediction_of (e : Entity) : gmap string value :=
  prediction (word e) (start e) (end_ e) (type e) (score e) (explanation e).

(** The invariant [0 <= start < end] of a detection record. *)
Definition valid_span (e : Entity) : Prop :=
  (0 <= start e < end_ e)%Z.

(** The part [start < end] of the invariant. *)
Definition nonempty_span (e : Entity) : Prop :=
  (start e < end_ e)%Z.

(** [x] lies in the half-open range of [o]. *)
Definition covers (o : Entity) (x : Z) : Prop :=
  (start o <= x < end_ o)%Z.

(** The whole span of [p] lies in the range of [o]. *)
Definition contains_span (o p : Entity) : Prop :=
  (start o <= start p)%Z /\ (end_ p <= end_ o)%Z.

(** [a] ends before [b] starts: the two spans do not overlap. *)
Definition before (a b : Entity) : Prop :=
  (end_ a <= start b)%Z.

Definition start_le (a b : Entity) : Prop :=
  (start a <= start b)%Z.

Definition start_lt (a b : Entity) : Prop :=
  (start a < start b)%Z.

(** [x] occurs in [s] as a substring. *)
Definition occurs_in (x s : string) : Prop :=
  exists pre post, s = String.append pre (String.append x post).

(** Lines 95-100 on typed records: what [fuse] computes on two
    dictionaries of the six keys ([fuse_entity_dict] below). *)
Definition fused (c e : Entity) : Entity :=
  {| word := String.append (word c) (word e);
     start := start c;
     end_ := end_ e;
     type := type c;
     score := PrimFloat.div (PrimFloat.add (score c) (score e)) 2;
     explanation :=
       join " and "
         (sorted_set (list_to_set (split (explanation c) " and ")
                      ∪ list_to_set (split (explanation e) " and "))) |}.

(** Lines 92-104 on typed records ([merge_consecutive_typed] below). *)
Definition consecutive_typed (st : list Entity * Entity) (e : Entity)
  : list Entity * Entity :=
  if (String.eqb (type e) (type st.2) && (start e =? end_ st.2)%Z)%bool
  then (st.1, fused st.2 e)
  else (st.1 ++ [st.2], e).

Definition merge_consecutive_of (l : list Entity) : list Entity :=
  match l with
  | [] => []
  | first :: rest =>
      let st := fold_left consecutive_typed rest ([], first) in
      st.1 ++ [st.2]
  end.

(** The scores of category [c] among the detections [ds], in order. *)
Definition scores_of (c : string) (ds : list RecognizerResult.t)
  : list float :=
  RecognizerResult.score <$>
    filter (fun r => RecognizerResult.entity_type r = c) ds.

(** The justification strings of category [c] among [ds], in order. *)
Definition explanations_of (c : string) (ds : list RecognizerResult.t)
  : list string :=
  (fun r => textual_explanation (RecognizerResult.analysis_explanation r)) <$>
    filter (fun r => RecognizerResult.entity_type r = c) ds.

(** A sum of floats, added from left to right as the loop does. *)
Definition float_sum (x : float) (xs : list float) : float :=
  fold_left PrimFloat.add xs x.

(** [int] to [float], for the counts of the aggregator. *)
Definition float_of_Z (n : Z) : float :=
  PrimFloat.of_uint63 (Uint63.of_Z n).

(** Exactly one record of [out], counted by position, has [x] in its
    range. *)
Definition covered_once (out : list Entity) (x : Z) : Prop :=
  exists i o, out !! i = Some o /\ covers o x /\
    forall j o', out !! j = Some o' -> covers o' x -> j = i.

(** Exactly one record of [out] contains the whole span of [p]. *)
Definition contained_once (out : list Entity) (p : Entity) : Prop :=
  exists i o, out !! i = Some o /\ contains_span o p /\
    forall j o', out !! j = Some o' -> contains_span o' p -> j = i.

(** Scenario 1 of the specification: two overlapping detections of one
    category, [[0,5)] at 0.9 and [[3,8)] at 0.7. *)
Definition scenario_overlap : list Entity :=
  [ mkEntity "Alice" 0 5 "PERSON" 0.9%float "name pattern";
    mkEntity "ce Bo" 3 8 "PERSON" 0.7%float "context words" ].

(** The entry of [pii_scores] for a category with the scores [l]. *)
Definition entry_of (l : list float) : option score_entry :=
  match l with
  | [] => None
  | x :: xs =>
      Some {| total_score := float_sum x xs; count := Z.of_nat (length l) |}
  end.

(** The sum of the scores [l] divided by their number; no entry for a
    category without detections. *)
Definition mean_of (l : list float) : option float :=
  match l with
  | [] => None
  | x :: xs =>
      Some (PrimFloat.div (float_sum x xs) (float_of_Z (Z.of_nat (length l))))
  end.

(** [total_score / count] of one entry. *)
Definition average (scores : score_entry) : float :=
  PrimFloat.div (total_score scores) (float_of_Z (count scores)).

Definition detection (t : string) (sc : float) (ex : string)
  : RecognizerResult.t :=
  RecognizerResult.mk 0 1 t sc {| textual_explanation := ex |}.

(** The group of the aggregation example: scores 0.8 and 0.6 for [A],
    0.5 for [B], over two records. *)
Definition example_group : DictAnalyzerResult.t :=
  DictAnalyzerResult.mk "column" ["first"; "second"]
    [ [ detection "A" 0.8%float "rule one"; detection "B" 0.5%float "rule two" ];
      [ detection "A" 0.6%float "rule three" ] ].

(** A group in which two detections of [A] carry the same explanation. *)
Definition repeated_group : DictAnalyzerResult.t :=
  DictAnalyzerResult.mk "column" ["first"; "second"]
    [ [ detection "A" 0.8%float "pattern" ];
      [ detection "A" 0.6%float "pattern" ] ].

(** The order [<=] of [str], as a relation. *)
Definition str_le (a b : string) : Prop :=
  String.leb a b = true.

(** Scenario 2 of the specification: two adjacent detections of one
    category, [[0,4)] and [[4,9)]. *)
Definition scenario_adjacent : list Entity :=
  [ mkEntity "John" 0 4 "PERSON" 0.8%float "name pattern";
    mkEntity "Smith" 4 9 "PERSON" 0.6%float "context words" ].

(** Two records with [0 <= start < end], the later span first. *)
Definition unsorted_pair : list Entity :=
  [ mkEntity "Smith" 5 10 "PERSON" 0.8%float "name pattern";
    mkEntity "John" 0 4 "PERSON" 0.6%float "context words" ].

(** Three records that start at 5; the first one ends before it
    starts. *)
Definition degenerate_spans : list Entity :=
  [ mkEntity "a" 5 3 "PERSON" 0.9%float "one";
    mkEntity "b" 5 9 "PERSON" 0.1%float "two";
    mkEntity "c" 6 7 "PERSON" 0.95%float "three" ].

(** [b] would be fused into [a] by line 94: same category, and [b]
    starts where [a] ends. *)
Definition fusable_pair (a b : Entity) : Prop :=
  type b = type a /\ start b = end_ a.

Definition not_fusable (a b : Entity) : Prop :=
  ~ fusable_pair a b.

(** The words of a list of records, one after the other. *)
Definition text_of (l : list Entity) : string :=
  foldr (fun e acc => String.append (word e) acc) EmptyString l.

(** Scenario 4 of the specification: three detections of distinct
    categories that neither overlap nor touch. *)
Definition scenario_apart : list Entity :=
  [ mkEntity "Ann" 0 3 "PERSON" 0.9%float "name pattern";
    mkEntity "Rio" 5 8 "LOCATION" 0.8%float "gazetteer";
    mkEntity "May" 10 13 "DATE" 0.7%float "date pattern" ].

(** The keys that lines 19-24 read from a prediction, in the order in
    which they are read. *)
Definition input_keys : list string :=
  ["word"; "start"; "end"; "entity_type"; "score"; "analysis_explanation"].

(** A prediction that carries one more entry than the six that are
    read. *)
Definition annotated_prediction : gmap string value :=
  <["recognizer" := VStr "SpacyRecognizer"]>
    (prediction "Ann" 0 3 "PERSON" 0.9%float "name pattern").

(** Every field of the output record [o] is taken from the input
    records [ps]: its start is the start of one of them; its end,
    category and score are those of one of them; its word is made of
    words of [ps] with single spaces between them; its explanation
    joins, in ascending order and without repetition, explanations of
    [ps]. *)
Definition taken_from (ps : list Entity) (o : Entity) : Prop :=
  (exists p, p ∈ ps /\ start o = start p)
  /\ (exists q, q ∈ ps /\ end_ o = end_ q /\ type o = type q
                 /\ score o = score q)
  /\ (exists ws, ws <> [] /\ word o = join " " ws
                  /\ forall w, w ∈ ws -> exists p, p ∈ ps /\ word p = w)
  /\ (exists xs, explanation o = join " and " xs
                  /\ StronglySorted str_le xs /\ NoDup xs
                  /\ forall x, x ∈ xs -> exists p, p ∈ ps /\ explanation p = x).

(** The variables of the sweep hold fields of the records [ps]. *)
Definition current_from (ps : list Entity) (c : current) (ex : gset string)
  : Prop :=
  (exists p, p ∈ ps /\ current_start c = start p)
  /\ (exists q, q ∈ ps /\ current_end c = end_ q /\ current_type c = type q
                 /\ current_score c = score q)
  /\ (exists ws, ws <> [] /\ current_word c = join " " ws
                  /\ forall w, w ∈ ws -> exists p, p ∈ ps /\ word p = w)
  /\ (forall x, x ∈ ex -> exists p, p ∈ ps /\ explanation p = x).

(** [y] is one of the strings that the explanation of [o] joins with
    [" and "]. *)
Definition explained_by (o : Entity) (y : string) : Prop :=
  exists xs, explanation o = join " and " xs /\ y ∈ xs.

(** Lines 113-121 on typed records: the record that [summarize_pii]
    builds for one detection ([word_prediction_of] below). *)
Definition record_of (text : string) (result : RecognizerResult.t) : Entity :=
  {| word := strip (slice text (RecognizerResult.start result)
                      (RecognizerResult.end_ result));
     start := RecognizerResult.start result;
     end_ := RecognizerResult.end_ result;
     type := RecognizerResult.entity_type result;
     score := RecognizerResult.score result;
     explanation :=
       textual_explanation (RecognizerResult.analysis_explanation result) |}.

(** The part [start < end] of the invariant, for a detection. *)
Definition nonempty_result (r : RecognizerResult.t) : Prop :=
  (RecognizerResult.start r < RecognizerResult.end_ r)%Z.

(** Two detections of one category that overlap, and a third of
    another category that starts where they end. *)
Definition sample_results : list RecognizerResult.t :=
  [ RecognizerResult.mk 8 13 "PERSON" 0.6%float
      {| textual_explanation := "context words" |};
    RecognizerResult.mk 0 9 "PERSON" 0.85%float
      {| textual_explanation := "name pattern" |};
    RecognizerResult.mk 13 18 "LOCATION" 0.7%float
      {| textual_explanation := "gazetteer" |} ].

(** Three detections with gaps between them. *)
Definition separate_results : list RecognizerResult.t :=
  [ RecognizerResult.mk 0 3 "PERSON" 0.9%float
      {| textual_explanation := "name pattern" |};
    RecognizerResult.mk 4 7 "PERSON" 0.8%float
      {| textual_explanation := "name pattern" |};
    RecognizerResult.mk 7 10 "LOCATION" 0.7%float
      {| textual_explanation := "gazetteer" |} ].

(** Three records of one category, each starting where the one before
    it ends. *)
Definition scenario_run : list Entity :=
  [ mkEntity "New" 0 3 "LOCATION" 0.8%float "gazetteer";
    mkEntity " York" 3 8 "LOCATION" 0.6%float "gazetteer";
    mkEntity " City" 8 13 "LOCATION" 0.4%float "context words" ].

(** A heap in which the list at 0 holds the same dictionary object
    twice. *)
Definition shared_heap : gmap Store.loc Store.object :=
  <[0 := Store.OList [1; 1]]> {[ 1 := Store.ODict annotated_prediction ]}.

(** * Properties *)

(** ** Dictionaries and their typed readings *)

Lemma flatten_prediction w s e t sc ex :
  flatten (prediction w s e t sc ex) = Ok (mkEntity w s e t sc ex).
Proof. reflexivity. Qed.

Lemma flatten_prediction_of e : flatten (prediction_of e) = Ok e.
Proof. destruct e; reflexivity. Qed.

Lemma as_entity_dict e : Store.as_entity (entity_dict e) = Ok e.
Proof. destruct e; reflexivity. Qed.

Lemma entity_dict_inj e1 e2 : entity_dict e1 = entity_dict e2 -> e1 = e2.
Proof.
  intros H. apply (f_equal Store.as_entity) in H.
  rewrite !as_entity_dict in H. congruence.
Qed.

Lemma Ok_inj {A : Type} (a b : A) : Ok a = Ok b -> a = b.
Proof. intros H. by injection H. Qed.

Lemma singleton_inj {A : Type} (a b : A) : [a] = [b] -> a = b.
Proof. intros H. by injection H. Qed.

Lemma mapM_result_fmap {A B : Type} (f : A -> result B) (g : B -> A) l :
  (forall x, f (g x) = Ok x) -> mapM f (g <$> l) = Ok l.
Proof.
  intros Hfg. induction l as [|x l IH]; [reflexivity|].
  cbn [fmap list_fmap mapM]. rewrite Hfg. cbn. rewrite IH. reflexivity.
Qed.

Lemma merge_entities_typed (ps : list Entity) :
  merge_entities (prediction_of <$> ps)
  = Ok (entity_dict <$> sweep (py_sort key_lt ps)).
Proof.
  unfold merge_entities.
  rewrite (mapM_result_fmap flatten prediction_of ps flatten_prediction_of).
  reflexivity.
Qed.

(** ** The sort *)

Section PySortFacts.
Context {A : Type} (lt : A -> A -> bool).

Lemma insort_perm x l : insort lt x l ≡ₚ x :: l.
Proof.
  induction l as [|y l IH]; cbn; [reflexivity|].
  destruct (lt x y); [reflexivity|].
  rewrite IH. apply Permutation_swap.
Qed.

Lemma py_sort_from_perm l acc :
  fold_left (fun acc x => insort lt x acc) l acc ≡ₚ acc ++ l.
Proof.
  revert acc. induction l as [|x l IH]; intros acc; cbn.
  - by rewrite app_nil_r.
  - rewrite IH, insort_perm. cbn. apply Permutation_middle.
Qed.

Lemma py_sort_perm l : py_sort lt l ≡ₚ l.
Proof. unfold py_sort. by rewrite py_sort_from_perm. Qed.

(** The sort orders by any transitive relation that [lt] decides. *)
Context (R : relation A).
Hypothesis lt_R : forall x y, lt x y = true -> R x y.
Hypothesis nlt_R : forall x y, lt x y = false -> R y x.
Hypothesis R_trans : forall x y z, R x y -> R y z -> R x z.

Lemma insort_sorted x l :
  StronglySorted R l -> StronglySorted R (insort lt x l).
Proof using lt_R nlt_R R_trans.
  induction 1 as [|y l Hl IH Hy]; cbn.
  - repeat constructor.
  - destruct (lt x y) eqn:E.
    + constructor; [by constructor|].
      constructor; [by apply lt_R|].
      eapply Forall_impl; [exact Hy|]. intros z Hz.
      eapply R_trans; [apply lt_R, E|exact Hz].
    + constructor; [exact IH|].
      rewrite insort_perm. constructor; [by apply nlt_R|exact Hy].
Qed.

Lemma py_sort_from_sorted l acc :
  StronglySorted R acc ->
  StronglySorted R (fold_left (fun acc x => insort lt x acc) l acc).
Proof using lt_R nlt_R R_trans.
  revert acc. induction l as [|x l IH]; intros acc Hacc; cbn; [done|].
  apply IH, insort_sorted, Hacc.
Qed.

Lemma py_sort_sorted l : StronglySorted R (py_sort lt l).
Proof using lt_R nlt_R R_trans. apply py_sort_from_sorted. constructor. Qed.
End PySortFacts.

(** A list in which no element is smaller than an earlier one is left
    as it is. *)
Lemma insort_last {A : Type} (lt : A -> A -> bool) x l :
  Forall (fun y => lt x y = false) l -> insort lt x l = l ++ [x].
Proof.
  induction 1 as [|y l Hy _ IH]; cbn; [done|].
  by rewrite Hy, IH.
Qed.

Lemma py_sort_from_id {A : Type} (lt : A -> A -> bool) l acc :
  StronglySorted (fun x y => lt y x = false) (acc ++ l) ->
  fold_left (fun acc x => insort lt x acc) l acc = acc ++ l.
Proof.
  revert acc. induction l as [|x l IH]; intros acc H; cbn.
  - by rewrite app_nil_r.
  - assert (insort lt x acc = acc ++ [x]) as ->.
    { apply insort_last.
      apply Forall_forall. intros y Hy.
      apply (StronglySorted_app_1_elem_of _ _ _ y x H Hy). left. }
    rewrite IH; rewrite <- app_assoc; done.
Qed.

Lemma py_sort_id {A : Type} (lt : A -> A -> bool) l :
  StronglySorted (fun x y => lt y x = false) l -> py_sort lt l = l.
Proof. intros H. unfold py_sort. by rewrite py_sort_from_id. Qed.

(** The key [(start, -score)] orders by [start]. *)
Lemma key_lt_start x y : key_lt x y = true -> start_le x y.
Proof.
  unfold key_lt, tuple_lt, sort_key, start_le; cbn.
  destruct (Z.eqb_spec (start x) (start y)); cbn; [lia|].
  intros ?%Z.ltb_lt. lia.
Qed.

Lemma key_nlt_start x y : key_lt x y = false -> start_le y x.
Proof.
  unfold key_lt, tuple_lt, sort_key, start_le; cbn.
  destruct (Z.eqb_spec (start x) (start y)); cbn; [lia|].
  intros ?%Z.ltb_ge. lia.
Qed.

Lemma key_lt_start_lt x y : start_lt x y -> key_lt y x = false.
Proof.
  unfold key_lt, tuple_lt, sort_key, start_lt; cbn. intros H.
  destruct (Z.eqb_spec (start y) (start x)); cbn; [lia|].
  apply Z.ltb_ge. lia.
Qed.

Lemma sort_by_start l : StronglySorted start_le (py_sort key_lt l).
Proof.
  apply py_sort_sorted.
  - apply key_lt_start.
  - apply key_nlt_start.
  - unfold start_le. intros; lia.
Qed.

(** ** The sweep of [merge_entities] *)

Lemma valid_nonempty e : valid_span e -> nonempty_span e.
Proof. unfold valid_span, nonempty_span. lia. Qed.

Lemma absorb_start c e : current_start (absorb c e) = current_start c.
Proof. unfold absorb. by destruct (PrimFloat.ltb _ _). Qed.

Lemma absorb_end c e :
  current_end (absorb c e) = current_end c \/ current_end (absorb c e) = end_ e.
Proof. unfold absorb. destruct (PrimFloat.ltb _ _); auto. Qed.

Lemma sweep_cons e rest :
  sweep (e :: rest)
  = close_last (fold_left sweep_step rest
                  ([], Some (first_of e, {[ explanation e ]}))).
Proof. reflexivity. Qed.

(** The output is a chain of non-empty spans, each ending before the
    next one starts. *)
Lemma sweep_from_chain rest : forall merged c ex,
  StronglySorted start_le rest ->
  Forall nonempty_span rest ->
  Forall (fun e => current_start c <= start e)%Z rest ->
  (current_start c < current_end c)%Z ->
  StronglySorted before merged ->
  Forall nonempty_span merged ->
  Forall (fun o => end_ o <= current_start c)%Z merged ->
  let out := close_last (fold_left sweep_step rest (merged, Some (c, ex))) in
  StronglySorted before out /\ Forall nonempty_span out.
Proof.
  induction rest as [|a rest IH];
    intros merged c ex Hsort Hne Hlo Hc Hm Hmne Hmc; cbn.
  - unfold close_last; cbn. split.
    + apply StronglySorted_app_2; [|done|repeat constructor].
      intros o1 o2 Ho1 ->%list_elem_of_singleton.
      rewrite Forall_forall in Hmc. apply Hmc, Ho1.
    + apply Forall_app. split; [done|]. by repeat constructor.
  - unfold sweep_step at 2; cbn.
    apply StronglySorted_cons in Hsort as [Ha Hsort].
    apply Forall_cons in Hne as [Hane Hne].
    apply Forall_cons in Hlo as [Halo Hlo].
    unfold nonempty_span in Hane.
    destruct (Z.ltb_spec (start a) (current_end c)) as [Hov|Hov].
    + apply IH; try done; rewrite ?absorb_start; try done.
      destruct (absorb_end c a) as [-> | ->]; lia.
    + apply IH; cbn; try done.
      * apply StronglySorted_app_2; [|done|repeat constructor].
        intros o1 o2 Ho1 ->%list_elem_of_singleton.
        rewrite Forall_forall in Hmc. apply Hmc, Ho1.
      * apply Forall_app. split; [done|]. by repeat constructor.
      * apply Forall_app. split.
        -- eapply Forall_impl; [exact Hmc|]. cbn. intros; lia.
        -- repeat constructor. cbn. lia.
Qed.

Lemma sweep_chain l :
  StronglySorted start_le l -> Forall nonempty_span l ->
  StronglySorted before (sweep l) /\ Forall nonempty_span (sweep l).
Proof.
  destruct l as [|e rest]; intros Hs Hne.
  - split; constructor.
  - rewrite sweep_cons.
    apply StronglySorted_cons in Hs as [He Hs].
    apply Forall_cons in Hne as [Hene Hne].
    apply sweep_from_chain; try done; constructor.
Qed.

Lemma sweep_step_some merged c ex a :
  sweep_step (merged, Some (c, ex)) a
  = if (start a <? current_end c)%Z
    then (merged, Some (absorb c a, ex ∪ {[ explanation a ]}))
    else (merged ++ [emit c ex], Some (first_of a, {[ explanation a ]})).
Proof. reflexivity. Qed.

(** A point of the current cluster, or of a closed one, stays covered. *)
Lemma sweep_from_covers rest : forall merged c ex x,
  Forall nonempty_span rest ->
  (exists o, o ∈ merged /\ covers o x)
  \/ ((current_start c <= x < current_end c)%Z
      /\ Forall (fun e => x <= start e)%Z rest) ->
  exists o,
    o ∈ close_last (fold_left sweep_step rest (merged, Some (c, ex)))
    /\ covers o x.
Proof.
  induction rest as [|a rest IH]; intros merged c ex x Hne Hx; cbn [fold_left].
  - unfold close_last; cbn. destruct Hx as [(o & Ho & Hc)|[Hc _]].
    + exists o. split; [|done]. apply elem_of_app. by left.
    + exists (emit c ex). split; [|done].
      apply elem_of_app. right. by apply list_elem_of_singleton.
  - rewrite sweep_step_some.
    apply Forall_cons in Hne as [Hane Hne]. unfold nonempty_span in Hane.
    destruct (Z.ltb_spec (start a) (current_end c)) as [Hov|Hov].
    + apply IH; [done|]. destruct Hx as [Hx|[Hc Hle]]; [by left|right].
      apply Forall_cons in Hle as [Hxa Hle]. split; [|done].
      rewrite absorb_start. destruct (absorb_end c a) as [-> | ->]; lia.
    + apply IH; [done|]. left. destruct Hx as [(o & Ho & Hc)|[Hc _]].
      * exists o. split; [|done]. apply elem_of_app. by left.
      * exists (emit c ex). split; [|done].
        apply elem_of_app. right. by apply list_elem_of_singleton.
Qed.

(** The start of every record still to come ends up covered. *)
Lemma sweep_from_covers_rest rest : forall merged c ex,
  StronglySorted start_le rest ->
  Forall nonempty_span rest ->
  Forall (fun e => current_start c <= start e)%Z rest ->
  forall e, e ∈ rest ->
  exists o,
    o ∈ close_last (fold_left sweep_step rest (merged, Some (c, ex)))
    /\ covers o (start e).
Proof.
  induction rest as [|a rest IH]; intros merged c ex Hs Hne Hlo e He;
    [by apply elem_of_nil in He|].
  apply StronglySorted_cons in Hs as [Ha Hs].
  pose proof Hne as Hne'. apply Forall_cons in Hne' as [Hane Hner].
  apply Forall_cons in Hlo as [Halo Hlo].
  unfold nonempty_span in Hane.
  apply elem_of_cons in He as [->|He]; cbn [fold_left];
    rewrite sweep_step_some.
  - destruct (Z.ltb_spec (start a) (current_end c)) as [Hov|Hov].
    + apply sweep_from_covers; [done|]. right. split; [|exact Ha].
      rewrite absorb_start. destruct (absorb_end c a) as [-> | ->]; lia.
    + apply sweep_from_covers; [done|]. right. split; [cbn; lia|exact Ha].
  - destruct (Z.ltb_spec (start a) (current_end c)) as [Hov|Hov].
    + apply IH; try done. by rewrite absorb_start.
    + apply IH; try done.
Qed.

Lemma sweep_covers l e :
  StronglySorted start_le l -> Forall nonempty_span l -> e ∈ l ->
  exists o, o ∈ sweep l /\ covers o (start e).
Proof.
  destruct l as [|a rest]; intros Hs Hne He; [by apply elem_of_nil in He|].
  rewrite sweep_cons.
  apply StronglySorted_cons in Hs as [Ha Hs].
  apply Forall_cons in Hne as [Hane Hne]. unfold nonempty_span in Hane.
  apply elem_of_cons in He as [->|He].
  - apply sweep_from_covers; [done|]. right. split; [cbn; lia|exact Ha].
  - apply sweep_from_covers_rest; try done.
Qed.

Lemma StronglySorted_lookup {A : Type} (R : relation A) l i j a b :
  StronglySorted R l -> l !! i = Some a -> l !! j = Some b -> i < j -> R a b.
Proof.
  intros Hl. revert i j. induction Hl as [|x l Hl IH Hx]; intros i j Hi Hj Hij.
  - by rewrite lookup_nil in Hi.
  - destruct j as [|j]; [lia|]. cbn in Hj. destruct i as [|i]; cbn in Hi.
    + injection Hi as ->. rewrite Forall_forall in Hx.
      apply Hx. by eapply list_elem_of_lookup_2.
    + eapply IH; [exact Hi|exact Hj|lia].
Qed.

(** In a chain, a point lies in at most one range. *)
Lemma chain_covers_unique out i j oi oj x :
  StronglySorted before out ->
  out !! i = Some oi -> out !! j = Some oj ->
  covers oi x -> covers oj x -> i = j.
Proof.
  intros Hout Hi Hj Hci Hcj. unfold covers in *.
  destruct (Nat.lt_trichotomy i j) as [Hlt|[->|Hlt]]; [|done|].
  - pose proof (StronglySorted_lookup _ _ _ _ _ _ Hout Hi Hj Hlt) as Hb.
    unfold before in Hb. lia.
  - pose proof (StronglySorted_lookup _ _ _ _ _ _ Hout Hj Hi Hlt) as Hb.
    unfold before in Hb. lia.
Qed.

Lemma chain_start_lt out :
  StronglySorted before out -> Forall nonempty_span out ->
  StronglySorted start_lt out.
Proof.
  induction 1 as [|o out Hout IH Ho]; intros Hne; [constructor|].
  apply Forall_cons in Hne as [Hone Hne]. constructor; [by apply IH|].
  eapply Forall_impl; [exact Ho|]. unfold before, start_lt, nonempty_span in *.
  cbn. intros; lia.
Qed.

(** ** Strings *)

Lemma append_nil_r s : String.append s EmptyString = s.
Proof.
  induction s as [|c s IH]; [reflexivity|].
  change (String c (String.append s EmptyString) = String c s).
  by rewrite IH.
Qed.

Lemma append_assoc a b c :
  String.append (String.append a b) c = String.append a (String.append b c).
Proof.
  induction a as [|x a IH]; [reflexivity|].
  change (String x (String.append (String.append a b) c)
          = String x (String.append a (String.append b c))).
  by rewrite IH.
Qed.

Lemma join_cons2 sep x y l :
  join sep (x :: y :: l)
  = String.append x (String.append sep (join sep (y :: l))).
Proof. reflexivity. Qed.

Lemma join_occurs sep x l : x ∈ l -> occurs_in x (join sep l).
Proof.
  induction l as [|y l IH]; intros Hx; [by apply elem_of_nil in Hx|].
  destruct l as [|z l].
  - apply list_elem_of_singleton in Hx as ->.
    exists EmptyString, EmptyString. symmetry. apply append_nil_r.
  - rewrite join_cons2. apply elem_of_cons in Hx as [->|Hx].
    + exists EmptyString. eexists. reflexivity.
    + destruct (IH Hx) as (pre & post & ->).
      exists (String.append y (String.append sep pre)), post.
      by rewrite !append_assoc.
Qed.

Lemma elem_of_sorted_set x (s : gset string) : x ∈ sorted_set s <-> x ∈ s.
Proof. unfold sorted_set. by rewrite py_sort_perm, elem_of_elements. Qed.

Lemma sorted_set_singleton x : sorted_set {[ x ]} = [x].
Proof. unfold sorted_set. by rewrite elements_singleton. Qed.

Lemma ltb_str_le x y : String.ltb x y = true -> str_le x y.
Proof.
  unfold str_le, String.ltb, String.leb. by destruct (String.compare x y).
Qed.

Lemma nltb_str_le x y : String.ltb x y = false -> str_le y x.
Proof.
  unfold str_le, String.ltb, String.leb. rewrite (String.compare_antisym y x).
  by destruct (String.compare x y).
Qed.

Lemma str_le_cases a b :
  str_le a b <-> a = b \/ OrderedTypeEx.String_as_OT.lt a b.
Proof.
  unfold str_le, String.leb.
  pose proof (OrderedTypeEx.String_as_OT.cmp_eq a b) as Heq.
  pose proof (OrderedTypeEx.String_as_OT.cmp_lt a b) as Hlt.
  unfold OrderedTypeEx.String_as_OT.cmp in *.
  destruct (String.compare a b) eqn:E.
  - split; [intros _; left; by apply Heq|done].
  - split; [intros _; right; by apply Hlt|done].
  - split; [done|]. intros [H%Heq|H%Hlt]; discriminate.
Qed.

Lemma str_le_trans a b c : str_le a b -> str_le b c -> str_le a c.
Proof.
  rewrite !str_le_cases. intros [->|Hab] [->|Hbc]; auto.
  right. eapply OrderedTypeEx.String_as_OT.lt_trans; eauto.
Qed.

Lemma str_le_antisym a b : str_le a b -> str_le b a -> a = b.
Proof. apply String.leb_antisym. Qed.

Lemma py_sort_strings_sorted l : StronglySorted str_le (py_sort String.ltb l).
Proof.
  apply py_sort_sorted.
  - apply ltb_str_le.
  - apply nltb_str_le.
  - apply str_le_trans.
Qed.

(** [sorted] of a set does not depend on the order in which the set is
    iterated. *)
Lemma py_sort_set_order (s : gset string) l :
  l ≡ₚ elements s -> py_sort String.ltb l = sorted_set s.
Proof.
  intros Hl. unfold sorted_set.
  apply (StronglySorted_unique_strong str_le).
  - intros x y _ _. apply str_le_antisym.
  - apply py_sort_strings_sorted.
  - apply py_sort_strings_sorted.
  - by rewrite !py_sort_perm.
Qed.

Lemma emit_first_of e : emit (first_of e) {[ explanation e ]} = e.
Proof. destruct e. unfold emit. cbn. by rewrite sorted_set_singleton. Qed.

(** ** Scenario 1: two overlapping detections *)

(** C1, as the code has it: for two detections of one category with
    spans [[0,5)] at score 0.9 and [[3,8)] at score 0.7, whatever their
    words and explanations, [merge_entities] returns exactly one record;
    it starts at 0, has score 0.9 and an explanation in which both
    explanations occur, and it ends at 5: the end of the second record
    is not taken, because its score is not greater. *)
Theorem overlap_scenario_one_span (w1 w2 t x1 x2 : string) :
  exists ex,
    merge_entities [ prediction w1 0 5 t 0.9%float x1;
                     prediction w2 3 8 t 0.7%float x2 ]
    = Ok [ entity_dict (mkEntity w1 0 5 t 0.9%float ex) ]
    /\ occurs_in x1 ex /\ occurs_in x2 ex.
Proof.
  exists (join " and " (sorted_set ({[ x1 ]} ∪ {[ x2 ]}))).
  split; [reflexivity|].
  split; apply join_occurs, elem_of_sorted_set; set_solver.
Qed.

Lemma sweep_scenario_overlap :
  sweep (py_sort key_lt scenario_overlap)
  = [ mkEntity "Alice" 0 5 "PERSON" 0.9%float
        "context words and name pattern" ].
Proof. vm_compute. reflexivity. Qed.

(** C1 as stated fails: on scenario 1 no single record ending at 8 is
    returned. *)
Lemma overlap_scenario_end_not_8 :
  ~ exists o,
      merge_entities (prediction_of <$> scenario_overlap) = Ok [entity_dict o]
      /\ start o = 0%Z /\ end_ o = 8%Z.
Proof.
  intros (o & H & _ & Hend).
  rewrite merge_entities_typed, sweep_scenario_overlap in H.
  apply Ok_inj, singleton_inj, entity_dict_inj in H.
  subst o. discriminate Hend.
Qed.

Ltac spans_ok :=
  repeat first [apply Forall_nil_2 | apply Forall_cons_2];
  unfold valid_span, nonempty_span; cbn; lia.

(** ** Completeness of the overlap merger *)

Lemma sorted_input_nonempty ps :
  Forall valid_span ps -> Forall nonempty_span (py_sort key_lt ps).
Proof.
  intros H. rewrite py_sort_perm.
  eapply Forall_impl; [exact H|]. apply valid_nonempty.
Qed.

(** C2, as the code has it: for every input list of records with
    [0 <= start < end], [merge_entities] returns a list in which the
    start offset of every input record lies in the range
    [[start, end)] of exactly one output record. *)
Theorem merge_entities_covers_starts (ps : list Entity) :
  Forall valid_span ps ->
  exists out,
    merge_entities (prediction_of <$> ps) = Ok (entity_dict <$> out)
    /\ forall p, p ∈ ps -> covered_once out (start p).
Proof.
  intros Hv. exists (sweep (py_sort key_lt ps)).
  split; [apply merge_entities_typed|]. intros p Hp.
  pose proof (sort_by_start ps) as Hs.
  pose proof (sorted_input_nonempty ps Hv) as Hne.
  destruct (sweep_chain _ Hs Hne) as [Hchain _].
  destruct (sweep_covers (py_sort key_lt ps) p Hs Hne) as (o & Ho & Hc).
  { by rewrite py_sort_perm. }
  apply list_elem_of_lookup in Ho as [i Hi].
  exists i, o. split; [done|]. split; [done|].
  intros j o' Hj Hc'. eapply chain_covers_unique; eauto.
Qed.

Lemma merge_entities_covers_starts_witness :
  exists out,
    merge_entities (prediction_of <$> scenario_overlap)
    = Ok (entity_dict <$> out)
    /\ forall p, p ∈ scenario_overlap -> covered_once out (start p).
Proof. apply (merge_entities_covers_starts scenario_overlap). spans_ok. Defined.

(** C2 as stated fails: the records of scenario 1 satisfy
    [0 <= start < end], and the span [[3,8)] of the second one is
    contained in no output record. *)
Lemma completeness_fails_on_overlap :
  Forall valid_span scenario_overlap
  /\ exists out p,
       merge_entities (prediction_of <$> scenario_overlap)
       = Ok (entity_dict <$> out)
       /\ p ∈ scenario_overlap
       /\ ~ contained_once out p.
Proof.
  split; [spans_ok|].
  exists (sweep (py_sort key_lt scenario_overlap)),
         (mkEntity "ce Bo" 3 8 "PERSON" 0.7%float "context words").
  split; [apply merge_entities_typed|].
  split; [unfold scenario_overlap; set_solver|].
  rewrite sweep_scenario_overlap.
  intros (i & o & Hi & [_ Hend] & _).
  destruct i as [|i]; [|by destruct i].
  injection Hi as <-. cbn in Hend. lia.
Qed.

(** ** The adjacency merger on dictionaries of the six keys *)

Lemma fusable_entity_dict c e :
  fusable (entity_dict c) (entity_dict e)
  = Ok (String.eqb (type e) (type c) && (start e =? end_ c)%Z).
Proof.
  unfold fusable.
  change (get_str (entity_dict e) "type") with (Ok (type e)).
  change (get_str (entity_dict c) "type") with (Ok (type c)).
  change (get_int (entity_dict e) "start") with (Ok (start e)).
  change (get_int (entity_dict c) "end") with (Ok (end_ c)).
  cbn. by destruct (String.eqb (type e) (type c)).
Qed.

Lemma fuse_entity_dict c e :
  fuse (entity_dict c) (entity_dict e) = Ok (entity_dict (fused c e)).
Proof. reflexivity. Qed.

Lemma consecutive_step_typed ms c e :
  consecutive_step (entity_dict <$> ms, entity_dict c) (entity_dict e)
  = Ok (entity_dict <$> (consecutive_typed (ms, c) e).1,
        entity_dict (consecutive_typed (ms, c) e).2).
Proof.
  unfold consecutive_step, consecutive_typed. cbn [fst snd].
  rewrite fusable_entity_dict. cbn.
  destruct (String.eqb (type e) (type c) && (start e =? end_ c)%Z); cbn.
  - by rewrite fuse_entity_dict.
  - by rewrite fmap_app.
Qed.

Lemma foldM_consecutive_typed rest : forall ms c,
  foldM consecutive_step (entity_dict <$> ms, entity_dict c)
    (entity_dict <$> rest)
  = Ok (entity_dict <$> (fold_left consecutive_typed rest (ms, c)).1,
        entity_dict (fold_left consecutive_typed rest (ms, c)).2).
Proof.
  induction rest as [|e rest IH]; intros ms c; [reflexivity|].
  cbn [fmap list_fmap foldM fold_left].
  rewrite consecutive_step_typed. cbn.
  destruct (consecutive_typed (ms, c) e) as [ms' c'] eqn:E. apply IH.
Qed.

Lemma merge_consecutive_typed (l : list Entity) :
  merge_consecutive_entities (entity_dict <$> l)
  = Ok (entity_dict <$> merge_consecutive_of l).
Proof.
  destruct l as [|first rest]; [reflexivity|].
  change (merge_consecutive_entities (entity_dict <$> first :: rest))
    with (st ← foldM consecutive_step (entity_dict <$> [], entity_dict first)
                 (entity_dict <$> rest);
          Ok (st.1 ++ [st.2])).
  rewrite foldM_consecutive_typed. cbn.
  by rewrite fmap_app.
Qed.

Lemma consecutive_typed_adjacent ms c e :
  type e = type c -> start e = end_ c ->
  consecutive_typed (ms, c) e = (ms, fused c e).
Proof.
  intros Ht Hs. unfold consecutive_typed. cbn [fst snd].
  by rewrite Ht, Hs, String.eqb_refl, Z.eqb_refl.
Qed.

(** C5: one iteration of [merge_consecutive_entities] on the running
    entry [c] and the next entry [e].  When [e] has the category of [c]
    and starts where [c] ends, [c] becomes the fused entry: the words
    concatenated without separator, the end of [e], the mean
    [(score c + score e) / 2], and the [" and "]-join of the sorted
    union of the two explanations split on [" and "]; nothing is
    appended to the output.  Otherwise [c] is appended unchanged and [e]
    becomes the running entry.  Three entries in a row therefore get the
    score [((s1 + s2) / 2 + s3) / 2], which for the scores 0, 0, 1
    is 0.5 and not the mean of the three. *)
Theorem adjacency_fusion_rule
    (merged : list (gmap string value)) (c e : Entity)
    (w1 w2 w3 t x1 x2 x3 : string) (p0 p1 p2 p3 : Z) (s1 s2 s3 : float) :
  consecutive_step (merged, entity_dict c) (entity_dict e)
  = Ok (if decide (type e = type c /\ start e = end_ c)
        then (merged,
              entity_dict
                {| word := String.append (word c) (word e);
                   start := start c;
                   end_ := end_ e;
                   type := type c;
                   score := PrimFloat.div (PrimFloat.add (score c) (score e)) 2;
                   explanation :=
                     join " and "
                       (sorted_set
                          (list_to_set (split (explanation c) " and ")
                           ∪ list_to_set (split (explanation e) " and "))) |})
        else (merged ++ [entity_dict c], entity_dict e))
  /\ (exists ex,
        merge_consecutive_entities
          [ entity_dict (mkEntity w1 p0 p1 t s1 x1);
            entity_dict (mkEntity w2 p1 p2 t s2 x2);
            entity_dict (mkEntity w3 p2 p3 t s3 x3) ]
        = Ok [ entity_dict
                 (mkEntity (String.append (String.append w1 w2) w3) p0 p3 t
                    (PrimFloat.div
                       (PrimFloat.add
                          (PrimFloat.div (PrimFloat.add s1 s2) 2) s3) 2)
                    ex) ])
  /\ PrimFloat.eqb
       (PrimFloat.div (PrimFloat.add (PrimFloat.div (PrimFloat.add 0 0) 2) 1) 2)
       (PrimFloat.div (PrimFloat.add (PrimFloat.add 0 0) 1) 3) = false.
Proof.
  split; [|split; [|reflexivity]].
  - unfold consecutive_step. cbn [fst snd].
    rewrite fusable_entity_dict. cbn.
    destruct (String.eqb_spec (type e) (type c)) as [Ht|Ht];
      destruct (Z.eqb_spec (start e) (end_ c)) as [Hs|Hs];
      case_decide as Hd; try (exfalso; tauto); cbn;
      [by rewrite fuse_entity_dict|done..].
  - eexists.
    change [entity_dict ?a; entity_dict ?b; entity_dict ?c]
      with (entity_dict <$> [a; b; c]).
    rewrite merge_consecutive_typed.
    unfold merge_consecutive_of. cbn [fold_left].
    rewrite !consecutive_typed_adjacent by reflexivity. reflexivity.
Qed.

(** ** Empty input *)

(** C8: on the empty detection list every stage returns the empty list
    and raises nothing. *)
Theorem empty_input_empty_output :
  merge_entities [] = Ok []
  /\ merge_consecutive_entities [] = Ok []
  /\ (forall text, summarize_pii [] text = Ok [])
  /\ (forall set_iter, summarize_pii_batch set_iter [] = Ok []).
Proof. repeat split. Qed.

(** ** Ordering of the two outputs *)

Lemma StronglySorted_weaken {A : Type} (R S : relation A) l :
  (forall x y, R x y -> S x y) -> StronglySorted R l -> StronglySorted S l.
Proof.
  intros HRS. induction 1 as [|x l Hl IH Hx]; constructor; [done|].
  eapply Forall_impl; [exact Hx|]. auto.
Qed.

(** The adjacency merger keeps a chain of non-empty spans a chain. *)
Lemma consecutive_from_chain rest : forall merged c,
  StronglySorted before rest ->
  Forall nonempty_span rest ->
  nonempty_span c ->
  Forall (before c) rest ->
  StronglySorted before merged ->
  Forall nonempty_span merged ->
  Forall (fun o => before o c) merged ->
  let st := fold_left consecutive_typed rest (merged, c) in
  StronglySorted before (st.1 ++ [st.2])
  /\ Forall nonempty_span (st.1 ++ [st.2]).
Proof.
  induction rest as [|e rest IH];
    intros merged c Hs Hne Hc Hcr Hm Hmne Hmc; cbn [fold_left].
  - cbn. split.
    + apply StronglySorted_app_2; [|done|repeat constructor].
      intros o1 o2 Ho1 ->%list_elem_of_singleton.
      rewrite Forall_forall in Hmc. by apply Hmc.
    + apply Forall_app. split; [done|]. by repeat constructor.
  - apply StronglySorted_cons in Hs as [He Hs].
    apply Forall_cons in Hne as [Hene Hne].
    apply Forall_cons in Hcr as [Hce Hcr].
    pose proof Hene as Hene'. pose proof Hc as Hc'. pose proof Hce as Hce'.
    unfold nonempty_span in Hene', Hc'. unfold before in Hce'.
    assert (consecutive_typed (merged, c) e
            = if (String.eqb (type e) (type c) && (start e =? end_ c)%Z)%bool
              then (merged, fused c e) else (merged ++ [c], e)) as ->
      by reflexivity.
    destruct (String.eqb (type e) (type c) && (start e =? end_ c)%Z).
    + apply IH; try done;
        first [ unfold nonempty_span; cbn; lia
              | eapply Forall_impl; [exact Hmc|];
                unfold before; cbn; intros; lia ].
    + apply IH; try done.
      * apply StronglySorted_app_2; [|done|repeat constructor].
        intros o1 o2 Ho1 ->%list_elem_of_singleton.
        rewrite Forall_forall in Hmc. by apply Hmc.
      * apply Forall_app. split; [done|]. by repeat constructor.
      * apply Forall_app. split.
        -- eapply Forall_impl; [exact Hmc|]. unfold before. cbn. intros; lia.
        -- by repeat constructor.
Qed.

Lemma merge_consecutive_chain l :
  StronglySorted before l -> Forall nonempty_span l ->
  StronglySorted before (merge_consecutive_of l)
  /\ Forall nonempty_span (merge_consecutive_of l).
Proof.
  destruct l as [|first rest]; intros Hs Hne; [split; constructor|].
  apply StronglySorted_cons in Hs as [Hf Hs].
  apply Forall_cons in Hne as [Hfne Hne].
  apply consecutive_from_chain; try done; constructor.
Qed.

(** The adjacency merger keeps the start of the running entry, so it
    keeps any list that is strictly sorted by [start] strictly sorted. *)
Lemma consecutive_from_sorted rest : forall merged c,
  StronglySorted start_lt (merged ++ c :: rest) ->
  let st := fold_left consecutive_typed rest (merged, c) in
  StronglySorted start_lt (st.1 ++ [st.2]).
Proof.
  induction rest as [|e rest IH]; intros merged c Hs; cbn [fold_left]; [done|].
  assert (consecutive_typed (merged, c) e
          = if (String.eqb (type e) (type c) && (start e =? end_ c)%Z)%bool
            then (merged, fused c e) else (merged ++ [c], e)) as ->
    by reflexivity.
  destruct (String.eqb (type e) (type c) && (start e =? end_ c)%Z).
  - apply IH.
    apply StronglySorted_app in Hs as (Hmc & Hm & Hc).
    apply StronglySorted_cons in Hc as [Hc Her].
    apply Forall_cons in Hc as [_ Hc].
    apply StronglySorted_cons in Her as [_ Hr].
    apply StronglySorted_app_2; [|done|by constructor].
    intros x1 x2 Hx1 [->|Hx2]%elem_of_cons.
    + apply (Hmc x1 c Hx1). left.
    + apply (Hmc x1 x2 Hx1). by do 2 right.
  - apply IH. by rewrite <- app_assoc.
Qed.

Lemma merge_consecutive_sorted l :
  StronglySorted start_lt l -> StronglySorted start_lt (merge_consecutive_of l).
Proof.
  destruct l as [|first rest]; intros Hs; [constructor|].
  by apply (consecutive_from_sorted rest [] first).
Qed.

(** C3, as the code has it: for every input list of records with
    [0 <= start < end], the output of [merge_entities] is strictly
    sorted by [start] and each of its records starts at or after the end
    of every earlier one; [merge_consecutive_entities] run on that
    output, as [summarize_pii] does, returns a list strictly sorted by
    [start] whose spans do not overlap either; and on every list [l]
    that is itself strictly sorted by [start] it returns a list strictly
    sorted by [start]. *)
Theorem outputs_strictly_sorted (ps l : list Entity) :
  Forall valid_span ps ->
  StronglySorted start_lt l ->
  (exists out out',
     merge_entities (prediction_of <$> ps) = Ok (entity_dict <$> out)
     /\ StronglySorted start_lt out
     /\ StronglySorted before out
     /\ merge_consecutive_entities (entity_dict <$> out)
        = Ok (entity_dict <$> out')
     /\ StronglySorted start_lt out'
     /\ StronglySorted before out')
  /\ (exists l',
        merge_consecutive_entities (entity_dict <$> l)
        = Ok (entity_dict <$> l')
        /\ StronglySorted start_lt l').
Proof.
  intros Hv Hl. split.
  - exists (sweep (py_sort key_lt ps)),
           (merge_consecutive_of (sweep (py_sort key_lt ps))).
    pose proof (sort_by_start ps) as Hs.
    pose proof (sorted_input_nonempty ps Hv) as Hne.
    destruct (sweep_chain _ Hs Hne) as [Hchain Hout].
    pose proof (chain_start_lt _ Hchain Hout) as Hlt.
    split; [apply merge_entities_typed|].
    split; [done|]. split; [done|].
    split; [apply merge_consecutive_typed|].
    split; [by apply merge_consecutive_sorted|].
    by apply merge_consecutive_chain.
  - exists (merge_consecutive_of l).
    split; [apply merge_consecutive_typed|].
    by apply merge_consecutive_sorted.
Qed.

Lemma outputs_strictly_sorted_witness :
  (exists out out',
     merge_entities (prediction_of <$> scenario_overlap)
     = Ok (entity_dict <$> out)
     /\ StronglySorted start_lt out
     /\ StronglySorted before out
     /\ merge_consecutive_entities (entity_dict <$> out)
        = Ok (entity_dict <$> out')
     /\ StronglySorted start_lt out'
     /\ StronglySorted before out')
  /\ (exists l',
        merge_consecutive_entities (entity_dict <$> scenario_adjacent)
        = Ok (entity_dict <$> l')
        /\ StronglySorted start_lt l').
Proof.
  apply (outputs_strictly_sorted scenario_overlap scenario_adjacent).
  - spans_ok.
  - repeat constructor.
Defined.

(** C3 as stated fails for the adjacency merger: the records of
    [unsorted_pair] satisfy [0 <= start < end], and
    [merge_consecutive_entities] returns them in the order given, the
    record that starts at 5 before the record that starts at 0. *)
Lemma adjacency_keeps_unsorted_input :
  Forall valid_span unsorted_pair
  /\ merge_consecutive_entities (entity_dict <$> unsorted_pair)
     = Ok (entity_dict <$> unsorted_pair)
  /\ ~ StronglySorted start_lt unsorted_pair.
Proof.
  split; [spans_ok|]. split; [by rewrite merge_consecutive_typed|].
  intros H. apply StronglySorted_cons in H as [H _].
  apply Forall_cons in H as [H _]. unfold start_lt in H. cbn in H. lia.
Qed.

(** ** Running the overlap merger on its own output *)

Lemma sweep_from_id rest : forall merged o,
  StronglySorted before (o :: rest) ->
  close_last (fold_left sweep_step rest
                (merged, Some (first_of o, {[ explanation o ]})))
  = merged ++ o :: rest.
Proof.
  induction rest as [|e rest IH]; intros merged o Hs; cbn [fold_left].
  - unfold close_last. cbn. by rewrite emit_first_of.
  - rewrite sweep_step_some.
    apply StronglySorted_cons in Hs as [Ho Hs].
    apply Forall_cons in Ho as [Hoe _]. unfold before in Hoe.
    destruct (Z.ltb_spec (start e) (current_end (first_of o))) as [Hov|_];
      [cbn in Hov; lia|].
    rewrite IH by done. rewrite emit_first_of. by rewrite <- app_assoc.
Qed.

Lemma sweep_id l : StronglySorted before l -> sweep l = l.
Proof.
  destruct l as [|o rest]; intros Hs; [reflexivity|].
  rewrite sweep_cons. by rewrite sweep_from_id.
Qed.

Lemma sort_chain_id l :
  StronglySorted before l -> Forall nonempty_span l ->
  py_sort key_lt l = l.
Proof.
  intros Hs Hne. apply py_sort_id.
  eapply StronglySorted_weaken; [|by apply chain_start_lt].
  apply key_lt_start_lt.
Qed.

(** C4, as the code has it: for every input list of records with
    [0 <= start < end], the output of [merge_entities], handed back
    under the input keys (['type'] as ['entity_type'], ['explanation']
    as the [textual_explanation] of ['analysis_explanation']), is
    returned unchanged by a second run: no span is merged again and no
    field is altered. *)
Theorem merge_entities_twice (ps : list Entity) :
  Forall valid_span ps ->
  exists out,
    merge_entities (prediction_of <$> ps) = Ok (entity_dict <$> out)
    /\ merge_entities (prediction_of <$> out) = Ok (entity_dict <$> out).
Proof.
  intros Hv. exists (sweep (py_sort key_lt ps)).
  split; [apply merge_entities_typed|].
  pose proof (sort_by_start ps) as Hs.
  pose proof (sorted_input_nonempty ps Hv) as Hne.
  destruct (sweep_chain _ Hs Hne) as [Hchain Hout].
  rewrite merge_entities_typed.
  by rewrite sort_chain_id, sweep_id.
Qed.

Lemma merge_entities_twice_witness :
  exists out,
    merge_entities (prediction_of <$> scenario_overlap)
    = Ok (entity_dict <$> out)
    /\ merge_entities (prediction_of <$> out) = Ok (entity_dict <$> out).
Proof. apply (merge_entities_twice scenario_overlap). spans_ok. Defined.

(** C4 as stated fails: the output of [merge_entities] has the key
    ['type'] and no key ['entity_type'], so a second run on it raises
    [KeyError] in the first loop.  And without [start < end] a second
    run under the input keys can merge again: [degenerate_spans] gives
    two records, which the second run merges into one. *)
Lemma merge_entities_on_own_output_raises :
  (exists out,
     merge_entities (prediction_of <$> scenario_overlap) = Ok out
     /\ merge_entities out = Err (KeyError "entity_type"))
  /\ (exists out out',
        merge_entities (prediction_of <$> degenerate_spans)
        = Ok (entity_dict <$> out)
        /\ merge_entities (prediction_of <$> out) = Ok (entity_dict <$> out')
        /\ length out = 2 /\ length out' = 1).
Proof.
  split.
  - eexists. split; [apply merge_entities_typed|].
    rewrite sweep_scenario_overlap. reflexivity.
  - eexists. eexists. split; [apply merge_entities_typed|].
    split; [apply merge_entities_typed|].
    split; vm_compute; reflexivity.
Qed.

(** ** The batch aggregator *)

Lemma fold_left_concat {A B : Type} (f : A -> B -> A) ls : forall a,
  fold_left (fun acc l => fold_left f l acc) ls a = fold_left f (concat ls) a.
Proof.
  induction ls as [|l ls IH]; intros a; cbn; [done|].
  by rewrite IH, fold_left_app.
Qed.

Lemma accumulated_flat rr :
  accumulated rr = fold_left accumulate (concat rr) (∅, ∅).
Proof. apply fold_left_concat. Qed.

Lemma scores_of_snoc c ds r :
  scores_of c (ds ++ [r])
  = scores_of c ds
    ++ (if decide (RecognizerResult.entity_type r = c)
        then [RecognizerResult.score r] else []).
Proof.
  unfold scores_of. rewrite filter_app, fmap_app. f_equal.
  rewrite filter_cons, filter_nil. by case_decide.
Qed.

Lemma explanations_of_snoc c ds r :
  explanations_of c (ds ++ [r])
  = explanations_of c ds
    ++ (if decide (RecognizerResult.entity_type r = c)
        then [textual_explanation (RecognizerResult.analysis_explanation r)]
        else []).
Proof.
  unfold explanations_of. rewrite filter_app, fmap_app. f_equal.
  rewrite filter_cons, filter_nil. by case_decide.
Qed.

Lemma entry_of_snoc l x :
  entry_of (l ++ [x])
  = Some match entry_of l with
         | Some scores =>
             {| total_score := PrimFloat.add (total_score scores) x;
                count := (count scores + 1)%Z |}
         | None => {| total_score := x; count := 1%Z |}
         end.
Proof.
  destruct l as [|y l]; [reflexivity|]. cbn [app entry_of].
  unfold float_sum. rewrite fold_left_app. cbn [fold_left].
  assert (Z.of_nat (length (y :: l ++ [x]))
          = (Z.of_nat (length (y :: l)) + 1)%Z) as ->; [|done].
  cbn [length]. rewrite length_app. cbn [length]. lia.
Qed.

(** The score accumulator holds, for every category, the left-to-right
    sum and the number of the scores seen for it. *)
Lemma accumulate_scores ds c :
  (fold_left accumulate ds (∅, ∅)).1 !! c = entry_of (scores_of c ds).
Proof.
  induction ds as [|r ds IH] using rev_ind; [apply lookup_empty|].
  rewrite fold_left_app. cbn [fold_left]. unfold accumulate at 1. cbn [fst].
  rewrite scores_of_snoc. unfold add_score.
  case_decide as Hc.
  - subst c. rewrite entry_of_snoc, <- IH.
    destruct (_ !! RecognizerResult.entity_type r);
      by rewrite lookup_insert_eq.
  - rewrite app_nil_r, <- IH.
    destruct (_ !! RecognizerResult.entity_type r);
      by rewrite lookup_insert_ne.
Qed.

(** The explanation accumulator holds the set of the explanations seen
    for every category. *)
Lemma accumulate_explanations ds c :
  (fold_left accumulate ds (∅, ∅)).2 !! c
  = match explanations_of c ds with
    | [] => None
    | xs => Some (list_to_set xs)
    end.
Proof.
  induction ds as [|r ds IH] using rev_ind; [apply lookup_empty|].
  rewrite fold_left_app. cbn [fold_left]. unfold accumulate at 1. cbn [snd].
  rewrite explanations_of_snoc. unfold add_explanation.
  case_decide as Hc.
  - subst c. rewrite IH.
    destruct (explanations_of _ ds) as [|x xs] eqn:E;
      rewrite lookup_insert_eq.
    + cbn. f_equal. apply set_eq. intros z. set_unfold. tauto.
    + cbn [app]. f_equal. apply set_eq. intros z. set_unfold. tauto.
  - rewrite app_nil_r, <- IH.
    destruct (_ !! RecognizerResult.entity_type r);
      by rewrite lookup_insert_ne.
Qed.

Lemma mapM_result_ok {A B : Type} (f : A -> result B) (g : A -> B) l :
  Forall (fun x => f x = Ok (g x)) l -> mapM f l = Ok (g <$> l).
Proof.
  induction 1 as [|x l Hx _ IH]; [reflexivity|].
  cbn [mapM fmap list_fmap]. rewrite Hx. cbn. rewrite IH. reflexivity.
Qed.

Lemma truediv_nonzero a n :
  n <> 0%Z -> truediv a n = Ok (PrimFloat.div a (float_of_Z n)).
Proof.
  intros Hn. unfold truediv. by destruct (Z.eqb_spec n 0).
Qed.

(** When no count is zero, no division raises and every category gets
    its [total_score / count]. *)
Lemma averages_ok (pii_scores : gmap string score_entry) :
  (forall c scores, pii_scores !! c = Some scores -> count scores <> 0%Z) ->
  averages pii_scores = Ok (average <$> pii_scores).
Proof.
  intros Hcount. unfold averages.
  rewrite (mapM_result_ok _ (prod_map id average)).
  - cbn. f_equal. rewrite list_to_map_fmap. f_equal.
    apply list_to_map_to_list.
  - apply Forall_forall. intros [c scores] Hin.
    apply elem_of_map_to_list in Hin. cbn.
    by rewrite (truediv_nonzero _ _ (Hcount c scores Hin)).
Qed.

Lemma entry_of_count l scores :
  entry_of l = Some scores -> (1 <= count scores)%Z.
Proof.
  destruct l as [|x xs]; [done|]. intros [= <-]. cbn [count length]. lia.
Qed.

Lemma average_entry_of l : average <$> entry_of l = mean_of l.
Proof. by destruct l. Qed.

Lemma accumulated_counts rr c scores :
  (accumulated rr).1 !! c = Some scores -> (1 <= count scores)%Z.
Proof.
  rewrite accumulated_flat, accumulate_scores. apply entry_of_count.
Qed.

Lemma summarize_item_ok set_iter item :
  summarize_item set_iter item
  = Ok {| Summary.column := DictAnalyzerResult.key item;
          Summary.n := Z.of_nat (length (DictAnalyzerResult.value item));
          Summary.avg_scores :=
            average <$>
              (accumulated (DictAnalyzerResult.recognizer_results item)).1;
          Summary.explanation :=
            (fun explanations => join " and " (set_iter explanations)) <$>
              (accumulated (DictAnalyzerResult.recognizer_results item)).2 |}.
Proof.
  unfold summarize_item. rewrite averages_ok; [reflexivity|].
  intros c scores H%accumulated_counts. lia.
Qed.

Lemma category_seen c ds :
  is_Some (entry_of (scores_of c ds))
  <-> exists r, r ∈ ds /\ RecognizerResult.entity_type r = c.
Proof.
  unfold scores_of.
  destruct (filter (fun r => RecognizerResult.entity_type r = c) ds)
    as [|r0 l] eqn:E; cbn.
  - split; [by intros [? ?]|]. intros (r & Hr & Hc).
    assert (r ∈ filter (fun r => RecognizerResult.entity_type r = c) ds) as Hin
      by (apply list_elem_of_filter; done).
    rewrite E in Hin. by apply elem_of_nil in Hin.
  - split; [intros _|by eauto].
    assert (r0 ∈ filter (fun r => RecognizerResult.entity_type r = c) ds) as Hin
      by (rewrite E; left).
    apply list_elem_of_filter in Hin as [Hc Hin]. eauto.
Qed.

(** C6: [summarize_pii_batch] returns, for every batch, one record per
    group, in order; its [n] is the length of the group's value list,
    and [avg_scores] maps each category of the group's flattened
    detections to the sum of its scores, added in order, divided by
    their number, and has no other key.  For the scores 0.8 and 0.6 of
    [A] and 0.5 of [B] this is [{A: 0.7, B: 0.5}]. *)
Theorem batch_counts_and_averages
    (set_iter : gset string -> list string)
    (presidio_results : list DictAnalyzerResult.t) :
  (exists out,
     summarize_pii_batch set_iter presidio_results = Ok out
     /\ Forall2
          (fun item s =>
             Summary.column s = DictAnalyzerResult.key item
             /\ Summary.n s = Z.of_nat (length (DictAnalyzerResult.value item))
             /\ forall c,
                  Summary.avg_scores s !! c
                  = mean_of
                      (scores_of c
                         (concat (DictAnalyzerResult.recognizer_results item))))
          presidio_results out)
  /\ (exists s,
        summarize_pii_batch set_iter [example_group] = Ok [s]
        /\ Summary.avg_scores s
           = <["A" := 0.7%float]> {[ "B" := 0.5%float ]}).
Proof.
  split.
  - eexists. split.
    + unfold summarize_pii_batch.
      apply mapM_result_ok, Forall_forall. intros item _.
      apply summarize_item_ok.
    + apply Forall2_fmap_r, Forall_Forall2_diag, Forall_forall.
      intros item _. cbn. split; [done|]. split; [done|]. intros c.
      by rewrite lookup_fmap, accumulated_flat, accumulate_scores,
        average_entry_of.
  - eexists. split.
    + unfold summarize_pii_batch. cbn [mapM].
      rewrite summarize_item_ok. reflexivity.
    + cbn [Summary.avg_scores]. vm_compute. reflexivity.
Qed.

(** C10: when the averages of a group are computed, every entry of the
    score accumulator has a count of at least 1, so its division
    [total_score / count] returns and is never a division by zero; the
    group's summary is produced, and the keys of its [avg_scores] are
    exactly the categories of the group's flattened detections. *)
Theorem averages_never_divide_by_zero
    (set_iter : gset string -> list string) (item : DictAnalyzerResult.t) :
  (forall c scores,
     (accumulated (DictAnalyzerResult.recognizer_results item)).1 !! c
     = Some scores ->
     (1 <= count scores)%Z
     /\ truediv (total_score scores) (count scores) = Ok (average scores))
  /\ exists s,
       summarize_item set_iter item = Ok s
       /\ forall c,
            c ∈ dom (Summary.avg_scores s)
            <-> exists r,
                  r ∈ concat (DictAnalyzerResult.recognizer_results item)
                  /\ RecognizerResult.entity_type r = c.
Proof.
  split.
  - intros c scores H%accumulated_counts. split; [done|].
    apply truediv_nonzero. lia.
  - eexists. split; [apply summarize_item_ok|]. intros c.
    cbn [Summary.avg_scores].
    rewrite elem_of_dom, lookup_fmap, fmap_is_Some, accumulated_flat,
      accumulate_scores.
    apply category_seen.
Qed.

Lemma combined_explanation_lookup (set_iter : gset string -> list string)
    (rr : list (list RecognizerResult.t)) (c : string) :
  ((fun explanations => join " and " (set_iter explanations)) <$>
     (accumulated rr).2) !! c
  = match explanations_of c (concat rr) with
    | [] => None
    | xs => Some (join " and " (set_iter (list_to_set xs)))
    end.
Proof.
  rewrite lookup_fmap, accumulated_flat, accumulate_explanations.
  by destruct (explanations_of c (concat rr)).
Qed.

(** C7, as the code has it: for every group and category the combined
    explanation is the [" and "]-join of the set of the category's
    justification strings, each distinct string once, in the order in
    which the set is iterated. *)
Theorem batch_explanations_join_a_set
    (set_iter : gset string -> list string)
    (set_iter_perm : forall s, set_iter s ≡ₚ elements s)
    (item : DictAnalyzerResult.t) :
  exists s,
    summarize_item set_iter item = Ok s
    /\ forall c,
         let xs :=
           explanations_of c
             (concat (DictAnalyzerResult.recognizer_results item)) in
         Summary.explanation s !! c
         = match xs with
           | [] => None
           | _ => Some (join " and " (set_iter (list_to_set xs)))
           end
         /\ NoDup (set_iter (list_to_set xs))
         /\ forall x, x ∈ set_iter (list_to_set xs) <-> x ∈ xs.
Proof.
  eexists. split; [apply summarize_item_ok|]. intros c xs.
  cbn [Summary.explanation]. split; [|split].
  - rewrite combined_explanation_lookup. fold xs. by destruct xs.
  - rewrite set_iter_perm. apply NoDup_elements.
  - intros x. rewrite set_iter_perm, elem_of_elements.
    apply elem_of_list_to_set.
Qed.

Lemma batch_explanations_join_a_set_witness :
  exists s,
    summarize_item elements repeated_group = Ok s
    /\ forall c,
         let xs :=
           explanations_of c
             (concat (DictAnalyzerResult.recognizer_results repeated_group)) in
         Summary.explanation s !! c
         = match xs with
           | [] => None
           | _ => Some (join " and " (elements (list_to_set xs : gset string)))
           end
         /\ NoDup (elements (list_to_set xs : gset string))
         /\ forall x, x ∈ elements (list_to_set xs : gset string) <-> x ∈ xs.
Proof.
  apply (batch_explanations_join_a_set elements (fun s => reflexivity _)
           repeated_group).
Defined.

(** C7 as stated fails: in [repeated_group] the explanation "pattern"
    is seen twice for [A]; whatever the iteration order of sets, the
    combined explanation is not the join of the two occurrences. *)
Lemma batch_explanation_is_deduplicated :
  ~ exists set_iter : gset string -> list string,
      (forall s, set_iter s ≡ₚ elements s)
      /\ exists s,
           summarize_item set_iter repeated_group = Ok s
           /\ Summary.explanation s !! "A"
              = Some (join " and "
                        (explanations_of "A"
                           (concat (DictAnalyzerResult.recognizer_results
                                      repeated_group)))).
Proof.
  intros (set_iter & Hperm & s & Hs & Hx).
  rewrite summarize_item_ok in Hs. apply Ok_inj in Hs as <-.
  cbn [Summary.explanation] in Hx.
  rewrite combined_explanation_lookup in Hx.
  assert (explanations_of "A"
            (concat (DictAnalyzerResult.recognizer_results repeated_group))
          = ["pattern"; "pattern"]) as E by reflexivity.
  rewrite E in Hx.
  assert (set_iter (list_to_set ["pattern"; "pattern"]) = ["pattern"]) as E'.
  { apply Permutation_singleton_r. rewrite Hperm.
    assert ((list_to_set ["pattern"; "pattern"] : gset string)
            = {[ "pattern" ]}) as -> by set_solver.
    by rewrite elements_singleton. }
  rewrite E' in Hx. discriminate Hx.
Qed.

(** ** The two methods on the store: what they write *)

Section StoreFrame.
Import Store.
Context (h0 : gmap loc object).

Lemma frame_ok_refl : frame_ok h0 h0.
Proof.
  split; [done|]. unfold fresh_in. intros l xs Hl Hx. congruence.
Qed.

Lemma safe_weaken {A : Type} (m : M A) (Q R : A -> Prop) :
  safe h0 m Q -> (forall a, Q a -> R a) -> safe h0 m R.
Proof.
  intros Hm HQR h Hh. destruct (Hm h Hh) as [Hok HQ]. split; auto.
Qed.

Lemma safe_ret {A : Type} (a : A) (Q : A -> Prop) :
  Q a -> safe h0 (mret a) Q.
Proof. intros HQ h Hh. split; [done|]. by intros a' [= <-]. Qed.

Lemma safe_bind {A B : Type} (m : M A) (f : A -> M B)
    (R : A -> Prop) (Q : B -> Prop) :
  safe h0 m R -> (forall a, R a -> safe h0 (f a) Q) -> safe h0 (m ≫= f) Q.
Proof.
  intros Hm Hf h Hh. destruct (Hm h Hh) as [Hok HR].
  unfold mbind, M_bind. destruct (m h) as [[a|e] h']; cbn in *.
  - apply (Hf a); auto.
  - split; [done|]. by intros b.
Qed.

Lemma safe_lift {A : Type} (r : result A) :
  safe h0 (lift r) (fun a => r = Ok a).
Proof. intros h Hh. by split. Qed.

Lemma safe_raise {A : Type} (e : pyerr) (Q : A -> Prop) :
  safe h0 (lift (Err e)) Q.
Proof. intros h Hh. split; [done|]. by intros a. Qed.

Lemma safe_load l :
  safe h0 (load l) (fun o => fresh_in h0 l -> holds_fresh h0 o).
Proof.
  intros h Hh. unfold load. destruct (h !! l) as [o|] eqn:E; cbn.
  - split; [done|]. intros o' [= <-] Hl.
    destruct o as [d|xs|s]; cbn; [done| |done].
    destruct Hh as [_ Hlists]. by apply (Hlists l).
  - split; [done|]. by intros o'.
Qed.

Lemma safe_new o : holds_fresh h0 o -> safe h0 (new o) (fresh_in h0).
Proof.
  intros Ho h [Hsub Hlists]. unfold new. cbn.
  pose proof (is_fresh (dom h)) as Hf.
  apply not_elem_of_dom in Hf.
  assert (fresh_in h0 (fresh (dom h))) as Hfresh.
  { unfold fresh_in. destruct (h0 !! fresh (dom h)) as [o'|] eqn:E; [|done].
    apply Hsub in E. congruence. }
  split; [split|].
  - intros l o' Hl. rewrite lookup_insert_ne; [by apply Hsub|].
    intros <-. unfold fresh_in in Hfresh. congruence.
  - intros l xs Hl. rewrite lookup_insert. case_decide as El.
    + intros [= ->]. exact Ho.
    + by apply Hlists.
  - by intros l [= <-].
Qed.

Lemma safe_store l o :
  fresh_in h0 l -> holds_fresh h0 o -> safe h0 (store l o) (fun _ => True).
Proof.
  intros Hl Ho h [Hsub Hlists]. unfold store. cbn.
  split; [split|done].
  - intros l' o' Hl'. rewrite lookup_insert_ne; [by apply Hsub|].
    intros <-. unfold fresh_in in Hl. congruence.
  - intros l' xs Hl'. rewrite lookup_insert. case_decide as El.
    + intros [= ->]. exact Ho.
    + by apply Hlists.
Qed.

Lemma safe_load_dict l : safe h0 (load_dict l) (fun _ => True).
Proof.
  unfold load_dict. eapply safe_bind; [apply safe_load|].
  intros [d|xs|s] _; first [by apply safe_ret | apply safe_raise].
Qed.

Lemma safe_load_set l : safe h0 (load_set l) (fun _ => True).
Proof.
  unfold load_set. eapply safe_bind; [apply safe_load|].
  intros [d|xs|s] _; first [by apply safe_ret | apply safe_raise].
Qed.

Lemma safe_load_list l :
  safe h0 (load_list l) (fun xs => fresh_in h0 l -> Forall (fresh_in h0) xs).
Proof.
  unfold load_list. eapply safe_bind; [apply safe_load|].
  intros [d|xs|s] Ho.
  - apply safe_raise.
  - by apply safe_ret.
  - apply safe_raise.
Qed.

Lemma safe_dict_setitem l k v :
  fresh_in h0 l -> safe h0 (dict_setitem l k v) (fun _ => True).
Proof.
  intros Hl. unfold dict_setitem.
  eapply safe_bind; [apply safe_load_dict|]. intros d _.
  by apply safe_store.
Qed.

Lemma safe_dict_copy l : safe h0 (dict_copy l) (fresh_in h0).
Proof.
  unfold dict_copy. eapply safe_bind; [apply safe_load_dict|].
  intros d _. by apply safe_new.
Qed.

Lemma safe_list_append l x :
  fresh_in h0 l -> fresh_in h0 x ->
  safe h0 (list_append l x) (fun _ => True).
Proof.
  intros Hl Hx. unfold list_append.
  eapply safe_bind; [apply safe_load_list|]. intros xs Hxs.
  apply safe_store; [done|]. cbn.
  apply Forall_app. split; [by apply Hxs|]. by repeat constructor.
Qed.

Lemma safe_set_add l x :
  fresh_in h0 l -> safe h0 (set_add l x) (fun _ => True).
Proof.
  intros Hl. unfold set_add.
  eapply safe_bind; [apply safe_load_set|]. intros s _.
  by apply safe_store.
Qed.

Lemma safe_new_ok o :
  match o with OList xs => xs = [] | _ => True end ->
  safe h0 (new o) (fresh_in h0).
Proof.
  intros Ho. apply safe_new. destruct o as [d|xs|s]; cbn; [done| |done].
  subst xs. constructor.
Qed.

Lemma safe_foldM {S A : Type} (body : S -> A -> M S) (I : S -> Prop) l :
  (forall s x, I s -> safe h0 (body s x) I) ->
  forall s, I s -> safe h0 (foldM body s l) I.
Proof.
  intros Hbody. induction l as [|x l IH]; intros s Hs; cbn [foldM].
  - by apply safe_ret.
  - eapply safe_bind; [by apply Hbody|]. intros s' Hs'. by apply IH.
Qed.
End StoreFrame.

Section StoreMethods.
Import Store.
Context (h0 : gmap loc object).

Lemma safe_flatten_into flattened_predictions entity :
  fresh_in h0 flattened_predictions ->
  safe h0 (flatten_into flattened_predictions entity) (fun _ => True).
Proof.
  intros Hf. unfold flatten_into.
  eapply safe_bind; [apply safe_load_dict|]. intros d _.
  eapply safe_bind; [apply safe_lift|]. intros e _.
  eapply safe_bind; [apply safe_new_ok; by cbn|]. intros n Hn.
  by apply safe_list_append.
Qed.

Lemma safe_keyed x : safe h0 (keyed x) (fun k => k.2 = x).
Proof.
  unfold keyed.
  eapply safe_bind; [apply safe_load_dict|]. intros d _.
  eapply safe_bind; [apply safe_lift|]. intros s _.
  eapply safe_bind; [apply safe_lift|]. intros sc _.
  by apply safe_ret.
Qed.

Lemma safe_mapM_keyed xs : safe h0 (mapM keyed xs) (fun ks => ks.*2 = xs).
Proof.
  induction xs as [|x xs IH]; cbn [mapM]; [by apply safe_ret|].
  eapply safe_bind; [apply safe_keyed|]. intros k Hk.
  eapply safe_bind; [apply IH|]. intros ks Hks.
  apply safe_ret. cbn. by rewrite Hk, Hks.
Qed.

Lemma safe_sort_in_place l :
  fresh_in h0 l -> safe h0 (sort_in_place l) (fun _ => True).
Proof.
  intros Hl. unfold sort_in_place.
  eapply safe_bind; [apply safe_load_list|]. intros xs Hxs.
  eapply safe_bind; [apply safe_mapM_keyed|]. intros ks Hks.
  apply safe_store; [done|]. cbn.
  rewrite py_sort_perm, Hks. by apply Hxs.
Qed.

Lemma safe_emit_into merged_entities c current_explanation :
  fresh_in h0 merged_entities ->
  safe h0 (emit_into merged_entities c current_explanation) (fun _ => True).
Proof.
  intros Hm. unfold emit_into.
  eapply safe_bind; [apply safe_load_set|]. intros s _.
  eapply safe_bind; [apply safe_new_ok; by cbn|]. intros d Hd.
  by apply safe_list_append.
Qed.

Lemma safe_sweep_body merged_entities cur entity :
  fresh_in h0 merged_entities -> sweep_inv h0 cur ->
  safe h0 (sweep_body merged_entities cur entity) (sweep_inv h0).
Proof.
  intros Hm Hcur. unfold sweep_body.
  eapply safe_bind; [apply safe_load_dict|]. intros d _.
  eapply safe_bind; [apply safe_lift|]. intros e _.
  destruct cur as [[c s]|].
  - destruct (start e <? current_end c)%Z.
    + eapply safe_bind; [by apply safe_set_add|]. intros _ _.
      by apply safe_ret.
    + eapply safe_bind; [by apply safe_emit_into|]. intros _ _.
      eapply safe_bind; [apply safe_new_ok; by cbn|]. intros s' Hs'.
      by apply safe_ret.
  - eapply safe_bind; [apply safe_new_ok; by cbn|]. intros s' Hs'.
    by apply safe_ret.
Qed.

Lemma safe_merge_entities predictions :
  safe h0 (Store.merge_entities predictions) (fresh_in h0).
Proof.
  unfold Store.merge_entities.
  eapply safe_bind; [apply safe_new_ok; by cbn|]. intros flat Hflat.
  eapply safe_bind; [apply safe_load_list|]. intros ps _.
  eapply safe_bind.
  { apply (safe_foldM h0 _ (fun _ => True)); [|done].
    intros _ x _. by apply safe_flatten_into. }
  intros _ _.
  eapply safe_bind; [by apply safe_sort_in_place|]. intros _ _.
  eapply safe_bind; [apply safe_new_ok; by cbn|]. intros merged Hmerged.
  eapply safe_bind; [apply safe_new_ok; by cbn|]. intros _ _.
  eapply safe_bind; [apply safe_load_list|]. intros fs _.
  eapply safe_bind.
  { apply (safe_foldM h0 _ (sweep_inv h0)); [|done].
    intros cur x Hcur. by apply safe_sweep_body. }
  intros cur Hcur.
  eapply safe_bind.
  { destruct cur as [[c s]|];
      [by apply safe_emit_into | by apply (safe_ret h0 tt (fun _ => True))]. }
  intros _ _. by apply safe_ret.
Qed.

Lemma safe_fuse_into current_entity entity :
  fresh_in h0 current_entity ->
  safe h0 (fuse_into current_entity entity) (fun _ => True).
Proof.
  intros Hc. unfold fuse_into.
  repeat
    lazymatch goal with
    | |- safe _ (mbind _ _) _ =>
        eapply safe_bind;
        [ first [ apply safe_load_dict | apply safe_lift
                | by apply safe_dict_setitem ] |];
        intros ? _
    end.
  by apply safe_dict_setitem.
Qed.

Lemma safe_consecutive_body merged_entities current_entity entity :
  fresh_in h0 merged_entities -> fresh_in h0 current_entity ->
  safe h0 (consecutive_body merged_entities current_entity entity)
    (fresh_in h0).
Proof.
  intros Hm Hc. unfold consecutive_body.
  eapply safe_bind; [apply safe_load_dict|]. intros e _.
  eapply safe_bind; [apply safe_load_dict|]. intros c _.
  eapply safe_bind; [apply safe_lift|]. intros [|] _.
  - eapply safe_bind; [by apply safe_fuse_into|]. intros _ _.
    by apply safe_ret.
  - eapply safe_bind; [by apply safe_list_append|]. intros _ _.
    apply safe_dict_copy.
Qed.

Lemma safe_merge_consecutive_entities entities :
  safe h0 (Store.merge_consecutive_entities entities) (fresh_in h0).
Proof.
  unfold Store.merge_consecutive_entities.
  eapply safe_bind; [apply safe_load_list|]. intros [|first rest] _.
  - apply safe_new_ok. by cbn.
  - eapply safe_bind; [apply safe_new_ok; by cbn|]. intros merged Hmerged.
    eapply safe_bind; [apply safe_dict_copy|]. intros cur Hcur.
    eapply safe_bind.
    { apply (safe_foldM h0 _ (fresh_in h0)); [|done].
      intros c x Hc. by apply safe_consecutive_body. }
    intros cur' Hcur'.
    eapply safe_bind; [by apply safe_list_append|]. intros _ _.
    by apply safe_ret.
Qed.
End StoreMethods.

(** C9: whatever the heap and the list handed over, [merge_entities]
    and [merge_consecutive_entities] leave every object that existed
    before the call (the input list and each of its records among them)
    with the contents it had, also when they raise; the list they
    return is a new object, and so is every record in it. *)
Theorem methods_leave_input_unchanged
    (h : gmap Store.loc Store.object) (entities : Store.loc) :
  let unchanged (r : result Store.loc * gmap Store.loc Store.object) :=
    (forall l o, h !! l = Some o -> r.2 !! l = Some o)
    /\ (forall q, r.1 = Ok q ->
        h !! q = None
        /\ forall xs, r.2 !! q = Some (Store.OList xs) ->
                      Forall (fun x => h !! x = None) xs) in
  unchanged (Store.merge_entities entities h)
  /\ unchanged (Store.merge_consecutive_entities entities h).
Proof.
  cbv zeta. split.
  - destruct (safe_merge_entities h entities h (frame_ok_refl h))
      as [[Hsub Hlists] Hq].
    split; [exact Hsub|]. intros q Hr. split; [by apply Hq|].
    intros xs. apply Hlists. by apply Hq.
  - destruct (safe_merge_consecutive_entities h entities h (frame_ok_refl h))
      as [[Hsub Hlists] Hq].
    split; [exact Hsub|]. intros q Hr. split; [by apply Hq|].
    intros xs. apply Hlists. by apply Hq.
Qed.

(** ** The store-level methods compute what the value-level ones do *)

Section StoreRuns.
Import Store.
Implicit Types h : gmap loc object.

Lemma run_bind_ok {A B : Type} (m : M A) (f : A -> M B) h a h' :
  m h = (Ok a, h') -> (m ≫= f) h = f a h'.
Proof. intros H. unfold mbind, M_bind. by rewrite H. Qed.

Lemma run_bind_err {A B : Type} (m : M A) (f : A -> M B) h e h' :
  m h = (Err e, h') -> (m ≫= f) h = (Err e, h').
Proof. intros H. unfold mbind, M_bind. by rewrite H. Qed.

Lemma run_load_dict h l d :
  h !! l = Some (ODict d) -> load_dict l h = (Ok d, h).
Proof. intros H. unfold load_dict, load, mbind, M_bind. by rewrite H. Qed.

Lemma run_load_list h l xs :
  h !! l = Some (OList xs) -> load_list l h = (Ok xs, h).
Proof. intros H. unfold load_list, load, mbind, M_bind. by rewrite H. Qed.

Lemma run_load_set h l s :
  h !! l = Some (OSet s) -> load_set l h = (Ok s, h).
Proof. intros H. unfold load_set, load, mbind, M_bind. by rewrite H. Qed.

Lemma run_list_append h l xs x :
  h !! l = Some (OList xs) ->
  list_append l x h = (Ok tt, <[l := OList (xs ++ [x])]> h).
Proof.
  intros H. unfold list_append.
  by rewrite (run_bind_ok _ _ _ _ _ (run_load_list _ _ _ H)).
Qed.

Lemma run_set_add h l s x :
  h !! l = Some (OSet s) ->
  set_add l x h = (Ok tt, <[l := OSet (s ∪ {[ x ]})]> h).
Proof.
  intros H. unfold set_add.
  by rewrite (run_bind_ok _ _ _ _ _ (run_load_set _ _ _ H)).
Qed.

Lemma run_dict_setitem h l d k v :
  h !! l = Some (ODict d) ->
  dict_setitem l k v h = (Ok tt, <[l := ODict (<[k := v]> d)]> h).
Proof.
  intros H. unfold dict_setitem.
  by rewrite (run_bind_ok _ _ _ _ _ (run_load_dict _ _ _ H)).
Qed.

Lemma fresh_lookup h : h !! fresh (dom h) = None.
Proof. apply not_elem_of_dom, is_fresh. Qed.

Lemma lookup_new h l o o' :
  h !! l = Some o -> <[fresh (dom h) := o']> h !! l = Some o.
Proof.
  intros H. rewrite lookup_insert_ne; [done|].
  intros <-. by rewrite fresh_lookup in H.
Qed.

Lemma dicts_at_new h xs ds o :
  dicts_at h xs ds -> dicts_at (<[fresh (dom h) := o]> h) xs ds.
Proof.
  unfold dicts_at. intros H. eapply Forall2_impl; [exact H|].
  intros x d Hx. by apply lookup_new.
Qed.

(** Storing a list or a set does not touch the dictionaries. *)
Lemma dicts_at_store h xs ds l o :
  (forall d, o <> ODict d) -> (forall d, h !! l <> Some (ODict d)) ->
  dicts_at h xs ds -> dicts_at (<[l := o]> h) xs ds.
Proof.
  unfold dicts_at. intros Ho Hl H. eapply Forall2_impl; [exact H|].
  intros x d Hx. rewrite lookup_insert_ne; [done|].
  intros <-. by apply (Hl d).
Qed.
End StoreRuns.


Section StoreFlatten.
Import Store.
Implicit Types h : gmap loc object.

Lemma run_flatten_into h flat entity d xs :
  h !! entity = Some (ODict d) -> h !! flat = Some (OList xs) ->
  flatten_into flat entity h
  = match flatten d with
    | Ok e =>
        (Ok tt,
         <[flat := OList (xs ++ [fresh (dom h)])]>
           (<[fresh (dom h) := ODict (entity_dict e)]> h))
    | Err err => (Err err, h)
    end.
Proof.
  intros He Hf. unfold flatten_into.
  rewrite (run_bind_ok _ _ _ _ _ (run_load_dict _ _ _ He)).
  destruct (flatten d) as [e|err]; [|reflexivity].
  unfold mbind at 1, M_bind at 1, lift.
  unfold mbind at 1, M_bind at 1, new.
  apply run_list_append. by apply lookup_new.
Qed.

Lemma run_flatten_loop flat : forall ps ds h xs es,
  dicts_at h ps ds ->
  h !! flat = Some (OList xs) ->
  dicts_at h xs (entity_dict <$> es) ->
  match mapM flatten ds with
  | Ok es' =>
      exists h' xs',
        foldM (fun _ entity => flatten_into flat entity) tt ps h = (Ok tt, h')
        /\ h' !! flat = Some (OList (xs ++ xs'))
        /\ dicts_at h' (xs ++ xs') (entity_dict <$> (es ++ es'))
  | Err e =>
      exists h',
        foldM (fun _ entity => flatten_into flat entity) tt ps h = (Err e, h')
  end.
Proof.
  induction ps as [|p ps IH]; intros ds h xs es Hps Hf Hxs.
  - apply Forall2_nil_inv_l in Hps as ->. cbn.
    exists h, []. by rewrite !app_nil_r.
  - apply Forall2_cons_inv_l in Hps as (d & ds' & Hp & Hps & ->).
    cbn [mapM foldM].
    pose proof (run_flatten_into h flat p d xs Hp Hf) as Hrun.
    destruct (flatten d) as [e|err]; cbn.
    + set (n := fresh (dom h)) in *.
      set (h1 := <[flat := OList (xs ++ [n])]> (<[n := ODict (entity_dict e)]> h))
        in *.
      assert (forall d', h !! flat <> Some (ODict d')) as Hnd
        by (intros d'; by rewrite Hf).
      assert (forall d', <[n := ODict (entity_dict e)]> h !! flat
                         <> Some (ODict d')) as Hnd'.
      { intros d'. unfold n. by rewrite (lookup_new _ _ _ _ Hf). }
      specialize (IH ds' h1 (xs ++ [n]) (es ++ [e])).
      destruct (mapM flatten ds') as [es'|err]; cbn.
      * destruct IH as (h' & xs' & Hloop & Hf' & Hd').
        -- apply dicts_at_store; [done|done|]. by apply dicts_at_new.
        -- unfold h1. apply lookup_insert_eq.
        -- rewrite fmap_app. apply Forall2_app.
           ++ apply dicts_at_store; [done|done|]. by apply dicts_at_new.
           ++ repeat constructor. unfold h1. rewrite lookup_insert_ne.
              ** apply lookup_insert_eq.
              ** intros E. rewrite E in Hf. unfold n in Hf.
                 by rewrite fresh_lookup in Hf.
        -- exists h', (n :: xs').
           rewrite (run_bind_ok _ _ _ _ _ Hrun).
           split; [done|].
           replace ((xs ++ [n]) ++ xs') with (xs ++ n :: xs') in Hf', Hd'
             by (by rewrite <- app_assoc).
           replace ((es ++ [e]) ++ es') with (es ++ e :: es') in Hd'
             by (by rewrite <- app_assoc).
           by split.
      * destruct IH as (h' & Hloop).
        -- apply dicts_at_store; [done|done|]. by apply dicts_at_new.
        -- unfold h1. apply lookup_insert_eq.
        -- rewrite fmap_app. apply Forall2_app.
           ++ apply dicts_at_store; [done|done|]. by apply dicts_at_new.
           ++ repeat constructor. unfold h1. rewrite lookup_insert_ne.
              ** apply lookup_insert_eq.
              ** intros E. rewrite E in Hf. unfold n in Hf.
                 by rewrite fresh_lookup in Hf.
        -- exists h'. by rewrite (run_bind_ok _ _ _ _ _ Hrun).
    + exists h. by rewrite (run_bind_err _ _ _ _ _ Hrun).
Qed.
End StoreFlatten.


(** Sorting commutes with a map that preserves the comparison. *)
Lemma insort_fmap {A B : Type} (lt1 : A -> A -> bool) (lt2 : B -> B -> bool)
    (f : A -> B) x l :
  (forall a b, lt2 (f a) (f b) = lt1 a b) ->
  insort lt2 (f x) (f <$> l) = f <$> insort lt1 x l.
Proof.
  intros Hlt. induction l as [|y l IH]; [reflexivity|].
  cbn. rewrite Hlt. destruct (lt1 x y); [reflexivity|].
  cbn. by rewrite IH.
Qed.

Lemma py_sort_from_fmap {A B : Type} (lt1 : A -> A -> bool)
    (lt2 : B -> B -> bool) (f : A -> B) l :
  (forall a b, lt2 (f a) (f b) = lt1 a b) ->
  forall acc,
    fold_left (fun acc x => insort lt2 x acc) (f <$> l) (f <$> acc)
    = f <$> fold_left (fun acc x => insort lt1 x acc) l acc.
Proof.
  intros Hlt. induction l as [|x l IH]; intros acc; [reflexivity|].
  cbn. rewrite (insort_fmap lt1 lt2 f x acc Hlt). apply IH.
Qed.

Lemma py_sort_fmap {A B : Type} (lt1 : A -> A -> bool) (lt2 : B -> B -> bool)
    (f : A -> B) l :
  (forall a b, lt2 (f a) (f b) = lt1 a b) ->
  py_sort lt2 (f <$> l) = f <$> py_sort lt1 l.
Proof. intros Hlt. apply (py_sort_from_fmap lt1 lt2 f l Hlt []). Qed.

Section StoreSort.
Import Store.
Implicit Types h : gmap loc object.

Lemma dicts_at_holds h xs es :
  dicts_at h xs (entity_dict <$> es) ->
  exists zs, xs = zs.*1 /\ es = zs.*2 /\ Forall (holds h) zs.
Proof.
  unfold dicts_at. revert es.
  induction xs as [|x xs IH]; intros es H.
  - apply Forall2_nil_inv_l in H. apply fmap_nil_inv in H as ->.
    by exists [].
  - apply Forall2_cons_inv_l in H as (d & ds & Hx & H & E).
    destruct es as [|e es]; [done|].
    change (entity_dict e :: (entity_dict <$> es) = d :: ds) in E.
    assert (d = entity_dict e /\ ds = entity_dict <$> es) as [-> ->]
      by (split; congruence).
    destruct (IH es H) as (zs & -> & -> & Hzs).
    exists ((x, e) :: zs). repeat split; [done..|]. by constructor.
Qed.

Lemma holds_dicts_at h zs :
  Forall (holds h) zs -> dicts_at h zs.*1 (entity_dict <$> zs.*2).
Proof.
  unfold dicts_at. induction 1 as [|[x e] zs Hz _ IH]; cbn; by constructor.
Qed.

Lemma run_keyed h x e :
  h !! x = Some (ODict (entity_dict e)) -> keyed x h = (Ok (sort_key e, x), h).
Proof.
  intros H. unfold keyed.
  by rewrite (run_bind_ok _ _ _ _ _ (run_load_dict _ _ _ H)).
Qed.

Lemma run_mapM_keyed h zs :
  Forall (holds h) zs ->
  mapM keyed zs.*1 h = (Ok ((fun p => (sort_key p.2, p.1)) <$> zs), h).
Proof.
  induction 1 as [|[x e] zs Hz _ IH]; [reflexivity|].
  cbn [fmap list_fmap mapM fst snd].
  rewrite (run_bind_ok _ _ _ _ _ (run_keyed _ _ _ Hz)).
  by rewrite (run_bind_ok _ _ _ _ _ IH).
Qed.

Lemma run_sort_in_place h l xs es :
  h !! l = Some (OList xs) ->
  dicts_at h xs (entity_dict <$> es) ->
  exists xs',
    sort_in_place l h = (Ok tt, <[l := OList xs']> h)
    /\ dicts_at (<[l := OList xs']> h) xs'
         (entity_dict <$> py_sort key_lt es).
Proof.
  intros Hl Hd. destruct (dicts_at_holds h xs es Hd) as (zs & -> & -> & Hzs).
  set (ltz := fun a b : loc * Entity => key_lt a.2 b.2).
  exists (py_sort ltz zs).*1. split.
  - unfold sort_in_place.
    rewrite (run_bind_ok _ _ _ _ _ (run_load_list _ _ _ Hl)).
    rewrite (run_bind_ok _ _ _ _ _ (run_mapM_keyed _ _ Hzs)).
    unfold store. do 3 f_equal.
    rewrite (py_sort_fmap ltz _ (fun p => (sort_key p.2, p.1)) zs)
      by reflexivity.
    rewrite <- list_fmap_compose. reflexivity.
  - rewrite (py_sort_fmap ltz key_lt snd zs) by reflexivity.
    apply dicts_at_store; [done|by (intros d; rewrite Hl)|].
    apply holds_dicts_at. by rewrite py_sort_perm.
Qed.
End StoreSort.


Section StoreSweep.
Import Store.
Implicit Types h : gmap loc object.

Lemma run_emit_into h merged c sl ex ml pm :
  h !! merged = Some (OList ml) ->
  dicts_at h ml (entity_dict <$> pm) ->
  h !! sl = Some (OSet ex) ->
  exists h',
    emit_into merged c sl h = (Ok tt, h')
    /\ (exists ml', h' !! merged = Some (OList ml')
                    /\ dicts_at h' ml' (entity_dict <$> (pm ++ [emit c ex])))
    /\ (forall xs ds, dicts_at h xs ds -> dicts_at h' xs ds).
Proof.
  intros Hm Hd Hs. unfold emit_into.
  rewrite (run_bind_ok _ _ _ _ _ (run_load_set _ _ _ Hs)).
  unfold mbind at 1, M_bind at 1, new.
  set (n := fresh (dom h)).
  set (h1 := <[n := ODict (entity_dict (emit c ex))]> h).
  assert (h1 !! merged = Some (OList ml)) as Hm1 by (by apply lookup_new).
  eexists. split; [by apply run_list_append|].
  assert (forall xs ds, dicts_at h xs ds ->
            dicts_at (<[merged := OList (ml ++ [n])]> h1) xs ds) as Hkeep.
  { intros xs ds Hx. apply dicts_at_store; [done|by (intros d; rewrite Hm1)|].
    by apply dicts_at_new. }
  split; [|exact Hkeep].
  exists (ml ++ [n]). split; [apply lookup_insert_eq|].
  rewrite fmap_app. apply Forall2_app; [by apply Hkeep|].
  repeat constructor. rewrite lookup_insert_ne.
  - apply lookup_insert_eq.
  - intros E. rewrite E in Hm. unfold n in Hm. by rewrite fresh_lookup in Hm.
Qed.

Lemma run_sweep_body h merged scur st x e :
  sweep_at h merged scur st ->
  h !! x = Some (ODict (entity_dict e)) ->
  exists h' scur',
    sweep_body merged scur x h = (Ok scur', h')
    /\ sweep_at h' merged scur' (sweep_step st e)
    /\ (forall xs ds, dicts_at h xs ds -> dicts_at h' xs ds).
Proof.
  intros [(ml & Hm & Hd) Hcur] Hx. unfold sweep_body.
  rewrite (run_bind_ok _ _ _ _ _ (run_load_dict _ _ _ Hx)).
  rewrite as_entity_dict.
  unfold mbind at 1, M_bind at 1, lift.
  destruct st as [pm cur]. unfold sweep_step. cbn [fst snd] in *.
  destruct scur as [[c sl]|], cur as [[c' ex]|]; cbn in Hcur; try done.
  - destruct Hcur as [<- Hs].
    destruct (start e <? current_end c)%Z.
    + rewrite (run_bind_ok _ _ _ _ _ (run_set_add _ _ _ _ Hs)).
      assert (forall xs ds, dicts_at h xs ds ->
                dicts_at (<[sl := OSet (ex ∪ {[ explanation e ]})]> h) xs ds)
        as Hkeep.
      { intros xs ds Hxs. apply dicts_at_store;
          [done|by (intros d; rewrite Hs)|done]. }
      eexists _, _. split; [reflexivity|]. split; [|exact Hkeep].
      split; cbn.
      * exists ml. split; [|by apply Hkeep].
        rewrite lookup_insert_ne; [done|]. intros <-. congruence.
      * split; [done|]. apply lookup_insert_eq.
    + destruct (run_emit_into h merged c sl ex ml pm Hm Hd Hs)
        as (h1 & Hrun & (ml' & Hm' & Hd') & Hkeep).
      rewrite (run_bind_ok _ _ _ _ _ Hrun).
      unfold mbind at 1, M_bind at 1, new. cbn.
      eexists _, _. split; [reflexivity|]. split; [split; cbn|].
      * exists ml'. split; [by apply lookup_new|by apply dicts_at_new].
      * split; [done|]. apply lookup_insert_eq.
      * intros xs ds Hxs. by apply dicts_at_new, Hkeep.
  - unfold mbind at 1, M_bind at 1, new. cbn.
    eexists _, _. split; [reflexivity|]. split; [split; cbn|].
    * exists ml. split; [by apply lookup_new|by apply dicts_at_new].
    * split; [done|]. apply lookup_insert_eq.
    * intros xs ds Hxs. by apply dicts_at_new.
Qed.

Lemma holds_keep h h' zs :
  (forall xs ds, dicts_at h xs ds -> dicts_at h' xs ds) ->
  Forall (holds h) zs -> Forall (holds h') zs.
Proof.
  intros Hkeep Hzs. eapply Forall_impl; [exact Hzs|].
  intros [x e] Hp.
  assert (dicts_at h [x] [entity_dict e]) as Hd by (by repeat constructor).
  apply Hkeep in Hd. by apply Forall2_cons_1 in Hd as [Hd _].
Qed.

Lemma run_sweep_loop merged : forall zs h scur st,
  sweep_at h merged scur st ->
  Forall (holds h) zs ->
  exists h' scur',
    foldM (sweep_body merged) scur zs.*1 h = (Ok scur', h')
    /\ sweep_at h' merged scur' (fold_left sweep_step zs.*2 st).
Proof.
  induction zs as [|[x e] zs IH]; intros h scur st Hst Hzs.
  - by exists h, scur.
  - apply Forall_cons in Hzs as [Hz Hzs]. cbn [fmap list_fmap foldM fold_left].
    destruct (run_sweep_body h merged scur st x e Hst Hz)
      as (h1 & scur1 & Hrun & Hst1 & Hkeep).
    rewrite (run_bind_ok _ _ _ _ _ Hrun).
    apply IH; [done|].
    by apply (holds_keep h h1).
Qed.
End StoreSweep.


Section StoreMergeEntities.
Implicit Types h : gmap Store.loc Store.object.

Lemma run_new h o :
  Store.new o h = (Ok (fresh (dom h)), <[fresh (dom h) := o]> h).
Proof. reflexivity. Qed.

Lemma run_ret {A : Type} h (a : A) : (mret a : Store.M A) h = (Ok a, h).
Proof. reflexivity. Qed.

(** [Store.merge_entities] returns a reference to a list of the
    dictionaries that [merge_entities] returns, and raises what it
    raises. *)
Lemma store_merge_entities_refines h predictions ds :
  Store.list_at h predictions ds ->
  match merge_entities ds with
  | Ok out =>
      exists q h',
        Store.merge_entities predictions h = (Ok q, h') /\ Store.list_at h' q out
  | Err e => exists h', Store.merge_entities predictions h = (Err e, h')
  end.
Proof.
  intros (ps & Hp & Hps). unfold Store.merge_entities, merge_entities.
  rewrite (run_bind_ok _ _ _ _ _ (run_new _ _)).
  set (flat := fresh (dom h)). set (h1 := <[flat := Store.OList []]> h).
  assert (h1 !! predictions = Some (Store.OList ps)) as Hp1 by (by apply lookup_new).
  rewrite (run_bind_ok _ _ _ _ _ (run_load_list _ _ _ Hp1)).
  pose proof (run_flatten_loop flat ps ds h1 [] []) as Hloop.
  destruct (mapM flatten ds) as [es|err]; cbn.
  2:{ destruct Hloop as (h2 & Hloop);
        [by apply dicts_at_new|apply lookup_insert_eq|constructor|].
      exists h2. by rewrite (run_bind_err _ _ _ _ _ Hloop). }
  destruct Hloop as (h2 & xs & Hloop & Hf2 & Hd2);
    [by apply dicts_at_new|apply lookup_insert_eq|constructor|].
  cbn in Hf2, Hd2.
  rewrite (run_bind_ok _ _ _ _ _ Hloop).
  destruct (run_sort_in_place h2 flat xs es Hf2 Hd2) as (xs' & Hsort & Hd3).
  rewrite (run_bind_ok _ _ _ _ _ Hsort).
  set (h3 := <[flat := Store.OList xs']> h2) in *.
  rewrite (run_bind_ok _ _ _ _ _ (run_new _ _)).
  set (merged := fresh (dom h3)). set (h4 := <[merged := Store.OList []]> h3).
  rewrite (run_bind_ok _ _ _ _ _ (run_new _ _)).
  set (h5 := <[fresh (dom h4) := Store.OSet ∅]> h4).
  assert (h5 !! flat = Some (Store.OList xs')) as Hf5.
  { apply lookup_new, lookup_new. apply lookup_insert_eq. }
  rewrite (run_bind_ok _ _ _ _ _ (run_load_list _ _ _ Hf5)).
  assert (Store.dicts_at h5 xs' (entity_dict <$> py_sort key_lt es)) as Hd5
    by (by apply dicts_at_new, dicts_at_new).
  destruct (dicts_at_holds _ _ _ Hd5) as (zs & -> & Ees & Hzs).
  assert (Store.sweep_at h5 merged None ([], None)) as Hst.
  { split; [|done]. exists []. split; [|constructor].
    apply lookup_new. apply lookup_insert_eq. }
  destruct (run_sweep_loop merged zs h5 None ([], None) Hst Hzs)
    as (h6 & scur & Hsweep & [(ml & Hm6 & Hd6) Hcur]).
  rewrite (run_bind_ok _ _ _ _ _ Hsweep).
  unfold sweep. rewrite Ees.
  destruct (fold_left sweep_step zs.*2 ([], None)) as [pm cur] eqn:Est.
  cbn [fst snd] in *. unfold close_last. cbn [fst snd].
  destruct scur as [[c sl]|], cur as [[c' ex]|]; cbn in Hcur; try done.
  - destruct Hcur as [<- Hs].
    destruct (run_emit_into h6 merged c sl ex ml pm Hm6 Hd6 Hs)
      as (h7 & Hrun & (ml' & Hm7 & Hd7) & _).
    rewrite (run_bind_ok _ _ _ _ _ Hrun).
    exists merged, h7. split; [reflexivity|]. by exists ml'.
  - rewrite (run_bind_ok _ _ _ _ _ (run_ret _ _)).
    exists merged, h6. split; [reflexivity|]. by exists ml.
Qed.
End StoreMergeEntities.


Section StoreConsecutive.
Import Store.
Implicit Types h : gmap loc object.

Lemma dicts_at_insert h xs ds l o :
  Forall (fun x => x <> l) xs ->
  dicts_at h xs ds -> dicts_at (<[l := o]> h) xs ds.
Proof.
  unfold dicts_at. intros Hne H. revert Hne.
  induction H as [|x d xs ds Hx _ IH]; intros Hne; [constructor|].
  apply Forall_cons in Hne as [Hxl Hne]. constructor; [|by apply IH].
  by rewrite lookup_insert_ne.
Qed.

Lemma dicts_at_not_fresh h xs ds :
  dicts_at h xs ds -> Forall (fun x => x <> fresh (dom h)) xs.
Proof.
  unfold dicts_at. induction 1 as [|x d xs ds Hx _ IH]; constructor; [|done].
  intros ->. by rewrite fresh_lookup in Hx.
Qed.

Lemma run_bind_lift {A B : Type} (r : result A) (f : A -> M B) h :
  (lift r ≫= f) h = match r with Ok a => f a h | Err e => (Err e, h) end.
Proof. by destruct r. Qed.

Lemma result_bind_ok {A B : Type} (a : A) (f : A -> result B) :
  (Ok a ≫= f) = f a.
Proof. reflexivity. Qed.

Lemma run_fuse_into h cur entity c e :
  h !! cur = Some (ODict c) -> h !! entity = Some (ODict e) ->
  cur <> entity ->
  match fuse c e with
  | Ok c' => fuse_into cur entity h = (Ok tt, <[cur := ODict c']> h)
  | Err err => exists h', fuse_into cur entity h = (Err err, h')
  end.
Proof.
  intros Hc He Hne. unfold fuse_into, fuse.
  rewrite (run_bind_ok _ _ _ _ _ (run_load_dict _ _ _ Hc)), run_bind_lift.
  destruct (get_str c "word") as [cw|err];
    [rewrite result_bind_ok; cbv beta iota zeta|cbn; by eexists].
  rewrite (run_bind_ok _ _ _ _ _ (run_load_dict _ _ _ He)), run_bind_lift.
  destruct (get_str e "word") as [ew|err];
    [rewrite result_bind_ok; cbv beta iota zeta|cbn; by eexists].
  rewrite (run_bind_ok _ _ _ _ _ (run_dict_setitem _ _ _ _ _ Hc)).
  set (c1 := <["word" := VStr (String.append cw ew)]> c).
  set (h1 := <[cur := ODict c1]> h).
  assert (h1 !! cur = Some (ODict c1)) as Hc1 by apply lookup_insert_eq.
  assert (h1 !! entity = Some (ODict e)) as He1
    by (unfold h1; by rewrite lookup_insert_ne).
  rewrite (run_bind_ok _ _ _ _ _ (run_load_dict _ _ _ He1)), run_bind_lift.
  destruct (get_int e "end") as [ee|err];
    [rewrite result_bind_ok; cbv beta iota zeta|cbn; by eexists].
  rewrite (run_bind_ok _ _ _ _ _ (run_dict_setitem _ _ _ _ _ Hc1)).
  set (c2 := <["end" := VInt ee]> c1).
  set (h2 := <[cur := ODict c2]> h1).
  assert (h2 !! cur = Some (ODict c2)) as Hc2 by apply lookup_insert_eq.
  assert (h2 !! entity = Some (ODict e)) as He2
    by (unfold h2; by rewrite lookup_insert_ne).
  rewrite (run_bind_ok _ _ _ _ _ (run_load_dict _ _ _ Hc2)), run_bind_lift.
  destruct (get_float c2 "score") as [cs|err];
    [rewrite result_bind_ok; cbv beta iota zeta|cbn; by eexists].
  rewrite (run_bind_ok _ _ _ _ _ (run_load_dict _ _ _ He2)), run_bind_lift.
  destruct (get_float e "score") as [es|err];
    [rewrite result_bind_ok; cbv beta iota zeta|cbn; by eexists].
  rewrite (run_bind_ok _ _ _ _ _ (run_dict_setitem _ _ _ _ _ Hc2)).
  set (c3 := <["score" := VFloat (PrimFloat.div (PrimFloat.add cs es) 2)]> c2).
  set (h3 := <[cur := ODict c3]> h2).
  assert (h3 !! cur = Some (ODict c3)) as Hc3 by apply lookup_insert_eq.
  assert (h3 !! entity = Some (ODict e)) as He3
    by (unfold h3; by rewrite lookup_insert_ne).
  rewrite (run_bind_ok _ _ _ _ _ (run_load_dict _ _ _ Hc3)), run_bind_lift.
  destruct (get_str c3 "explanation") as [cx|err];
    [rewrite result_bind_ok; cbv beta iota zeta|cbn; by eexists].
  rewrite (run_bind_ok _ _ _ _ _ (run_load_dict _ _ _ He3)), run_bind_lift.
  destruct (get_str e "explanation") as [ex|err];
    [rewrite result_bind_ok; cbv beta iota zeta|cbn; by eexists].
  rewrite (run_dict_setitem _ _ _ _ _ Hc3).
  unfold h3, h2, h1. by rewrite !insert_insert_eq.
Qed.
End StoreConsecutive.


Section StoreConsecutiveLoop.
Import Store.
Implicit Types h : gmap loc object.

Lemma run_consecutive_body h merged cur st x d :
  consecutive_at h merged cur st ->
  h !! x = Some (ODict d) -> x <> cur ->
  match consecutive_step st d with
  | Ok st' =>
      exists h' cur',
        consecutive_body merged cur x h = (Ok cur', h')
        /\ consecutive_at h' merged cur' st'
        /\ (forall xs ds, Forall (fun y => y <> cur) xs ->
              dicts_at h xs ds ->
              dicts_at h' xs ds /\ Forall (fun y => y <> cur') xs)
  | Err e => exists h', consecutive_body merged cur x h = (Err e, h')
  end.
Proof.
  intros [(ml & Hm & Hd & Hml) Hc] Hx Hne.
  destruct st as [pm c]. cbn [fst snd] in *.
  unfold consecutive_body, consecutive_step. cbn [fst snd].
  rewrite (run_bind_ok _ _ _ _ _ (run_load_dict _ _ _ Hx)).
  rewrite (run_bind_ok _ _ _ _ _ (run_load_dict _ _ _ Hc)).
  rewrite run_bind_lift.
  destruct (fusable c d) as [[|]|err];
    [rewrite result_bind_ok; cbv beta iota..|cbn; by eexists].
  - pose proof (run_fuse_into h cur x c d Hc Hx (not_eq_sym Hne)) as Hfuse.
    destruct (fuse c d) as [c'|err]; cbn.
    + rewrite (run_bind_ok _ _ _ _ _ Hfuse).
      exists (<[cur := ODict c']> h), cur. split; [reflexivity|].
      split; [split|].
      * exists ml. split; [|split; [by apply dicts_at_insert|done]].
        rewrite lookup_insert_ne; [done|]. intros <-. congruence.
      * apply lookup_insert_eq.
      * intros xs ds Hxs Hds. split; [by apply dicts_at_insert|done].
    + destruct Hfuse as [h' Hfuse]. exists h'.
      by rewrite (run_bind_err _ _ _ _ _ Hfuse).
  - cbn.
    rewrite (run_bind_ok _ _ _ _ _ (run_list_append _ _ _ cur Hm)).
    set (h1 := <[merged := OList (ml ++ [cur])]> h).
    assert (forall xs ds, dicts_at h xs ds -> dicts_at h1 xs ds) as Hkeep.
    { intros xs ds Hxs.
      apply dicts_at_store; [done|by (intros d'; rewrite Hm)|done]. }
    assert (h1 !! x = Some (ODict d)) as Hx1.
    { unfold h1. rewrite lookup_insert_ne; [done|]. intros <-. congruence. }
    assert (h1 !! cur = Some (ODict c)) as Hc1.
    { unfold h1. rewrite lookup_insert_ne; [done|]. intros <-. congruence. }
    unfold dict_copy.
    rewrite (run_bind_ok _ _ _ _ _ (run_load_dict _ _ _ Hx1)).
    unfold new. set (n := fresh (dom h1)).
    exists (<[n := ODict d]> h1), n. split; [reflexivity|].
    assert (dicts_at h1 (ml ++ [cur]) (pm ++ [c])) as Hd1.
    { apply Forall2_app; [by apply Hkeep|]. by repeat constructor. }
    split; [split|].
    + exists (ml ++ [cur]). split; [|split].
      * apply lookup_new. unfold h1. apply lookup_insert_eq.
      * by apply dicts_at_new.
      * by apply (dicts_at_not_fresh h1 _ _ Hd1).
    + apply lookup_insert_eq.
    + intros xs ds _ Hds. split.
      * by apply dicts_at_new, Hkeep.
      * apply (dicts_at_not_fresh h1 xs ds). by apply Hkeep.
Qed.

Lemma run_consecutive_loop merged : forall rest ds h cur st,
  consecutive_at h merged cur st ->
  dicts_at h rest ds ->
  Forall (fun y => y <> cur) rest ->
  match foldM consecutive_step st ds with
  | Ok st' =>
      exists h' cur',
        foldM (consecutive_body merged) cur rest h = (Ok cur', h')
        /\ consecutive_at h' merged cur' st'
  | Err e =>
      exists h', foldM (consecutive_body merged) cur rest h = (Err e, h')
  end.
Proof.
  induction rest as [|x rest IH]; intros ds h cur st Hst Hds Hne.
  - apply Forall2_nil_inv_l in Hds as ->. cbn. by exists h, cur.
  - apply Forall2_cons_inv_l in Hds as (d & ds' & Hx & Hds & ->).
    apply Forall_cons in Hne as [Hxne Hne]. cbn [foldM].
    pose proof (run_consecutive_body h merged cur st x d Hst Hx Hxne) as Hbody.
    destruct (consecutive_step st d) as [st1|err].
    + destruct Hbody as (h1 & cur1 & Hrun & Hst1 & Hkeep).
      destruct (Hkeep rest ds' Hne Hds) as [Hds1 Hne1].
      rewrite result_bind_ok. rewrite (run_bind_ok _ _ _ _ _ Hrun).
      by apply IH.
    + destruct Hbody as (h1 & Hrun). cbn. exists h1.
      by rewrite (run_bind_err _ _ _ _ _ Hrun).
Qed.
End StoreConsecutiveLoop.


Section StoreMergeConsecutive.
Implicit Types h : gmap Store.loc Store.object.

Lemma run_dict_copy h l d :
  h !! l = Some (Store.ODict d) ->
  Store.dict_copy l h
  = (Ok (fresh (dom h)), <[fresh (dom h) := Store.ODict d]> h).
Proof.
  intros H. unfold Store.dict_copy.
  by rewrite (run_bind_ok _ _ _ _ _ (run_load_dict _ _ _ H)).
Qed.

(** [Store.merge_consecutive_entities] returns a reference to a list of
    the dictionaries that [merge_consecutive_entities] returns, and
    raises what it raises. *)
Lemma store_merge_consecutive_refines h entities ds :
  Store.list_at h entities ds ->
  match merge_consecutive_entities ds with
  | Ok out =>
      exists q h',
        Store.merge_consecutive_entities entities h = (Ok q, h')
        /\ Store.list_at h' q out
  | Err e =>
      exists h', Store.merge_consecutive_entities entities h = (Err e, h')
  end.
Proof.
  intros (es & He & Hes).
  unfold Store.merge_consecutive_entities, merge_consecutive_entities.
  rewrite (run_bind_ok _ _ _ _ _ (run_load_list _ _ _ He)).
  destruct Hes as [|first d rest ds Hfirst Hrest].
  - eexists _, _. split; [apply run_new|].
    exists []. split; [apply lookup_insert_eq|constructor].
  - rewrite (run_bind_ok _ _ _ _ _ (run_new _ _)).
    set (merged := fresh (dom h)).
    set (h1 := <[merged := Store.OList []]> h).
    assert (h1 !! first = Some (Store.ODict d)) as Hfirst1
      by (by apply lookup_new).
    rewrite (run_bind_ok _ _ _ _ _ (run_dict_copy _ _ _ Hfirst1)).
    set (cur := fresh (dom h1)).
    set (h2 := <[cur := Store.ODict d]> h1).
    assert (Store.dicts_at h1 rest ds) as Hrest1 by (by apply dicts_at_new).
    assert (Store.consecutive_at h2 merged cur ([], d)) as Hst.
    { split; [|apply lookup_insert_eq].
      exists []. split; [|split; constructor].
      apply lookup_new. apply lookup_insert_eq. }
    pose proof (run_consecutive_loop merged rest ds h2 cur ([], d) Hst) as Hloop.
    destruct (foldM consecutive_step ([], d) ds) as [[pm c]|err].
    + destruct Hloop as (h3 & cur' & Hrun & [(ml & Hm & Hd & _) Hc]);
        [by apply dicts_at_new|by apply (dicts_at_not_fresh h1 rest ds)|].
      rewrite (run_bind_ok _ _ _ _ _ Hrun).
      rewrite (run_bind_ok _ _ _ _ _ (run_list_append _ _ _ cur' Hm)).
      cbn [fst snd] in *.
      eexists _, _. split; [reflexivity|].
      exists (ml ++ [cur']). split; [apply lookup_insert_eq|].
      apply dicts_at_store; [done|by (intros d'; rewrite Hm)|].
      apply Forall2_app; [done|]. by repeat constructor.
    + destruct Hloop as (h3 & Hrun);
        [by apply dicts_at_new|by apply (dicts_at_not_fresh h1 rest ds)|].
      exists h3. by rewrite (run_bind_err _ _ _ _ _ Hrun).
Qed.
End StoreMergeConsecutive.

(** * Further properties of the code *)

(** ** The adjacency merger: what it keeps *)

Lemma fusable_pair_test a b :
  (String.eqb (type b) (type a) && (start b =? end_ a)%Z)%bool = true
  <-> fusable_pair a b.
Proof.
  unfold fusable_pair. rewrite andb_true_iff, String.eqb_eq, Z.eqb_eq. tauto.
Qed.

Lemma Sorted_snoc_last {A : Type} (R : relation A) l c e :
  Sorted R (l ++ [c]) -> R c e -> Sorted R ((l ++ [c]) ++ [e]).
Proof.
  induction l as [|x l IH]; cbn; intros Hs Hce.
  - repeat constructor. exact Hce.
  - apply Sorted_inv in Hs as [Hs Hx]. constructor; [by apply IH|].
    destruct l as [|y l]; cbn in *; apply HdRel_inv in Hx; by constructor.
Qed.

Lemma Sorted_replace_last {A : Type} (R : relation A) l c c' :
  Sorted R (l ++ [c]) -> (forall x, R x c -> R x c') -> Sorted R (l ++ [c']).
Proof.
  induction l as [|x l IH]; cbn; intros Hs Hc.
  - repeat constructor.
  - apply Sorted_inv in Hs as [Hs Hx]. constructor; [by apply IH|].
    destruct l as [|y l]; cbn in *; apply HdRel_inv in Hx; constructor; auto.
Qed.

Lemma consecutive_from_not_fusable rest : forall merged c,
  Sorted not_fusable (merged ++ [c]) ->
  let st := fold_left consecutive_typed rest (merged, c) in
  Sorted not_fusable (st.1 ++ [st.2]).
Proof.
  induction rest as [|e rest IH]; intros merged c Hs; cbn [fold_left]; [done|].
  assert (consecutive_typed (merged, c) e
          = if (String.eqb (type e) (type c) && (start e =? end_ c)%Z)%bool
            then (merged, fused c e) else (merged ++ [c], e)) as ->
    by reflexivity.
  destruct (String.eqb (type e) (type c) && (start e =? end_ c)%Z) eqn:E.
  - apply IH. eapply Sorted_replace_last; [exact Hs|].
    intros x Hx. exact Hx.
  - apply IH. apply Sorted_snoc_last; [done|].
    intros Hf%fusable_pair_test. congruence.
Qed.

(** X1: whatever list of records [merge_consecutive_entities] is given,
    no record of its output has the category of the record before it
    and starts where that record ends: every pair the loop could fuse
    has been fused. *)
Theorem merge_consecutive_leaves_no_fusable_pair (l : list Entity) :
  exists out,
    merge_consecutive_entities (entity_dict <$> l) = Ok (entity_dict <$> out)
    /\ forall i a b,
         out !! i = Some a -> out !! S i = Some b ->
         ~ (type b = type a /\ start b = end_ a).
Proof.
  exists (merge_consecutive_of l). split; [apply merge_consecutive_typed|].
  assert (Sorted not_fusable (merge_consecutive_of l)) as Hs.
  { destruct l as [|first rest]; [constructor|].
    apply (consecutive_from_not_fusable rest [] first). repeat constructor. }
  revert Hs. generalize (merge_consecutive_of l). clear l.
  intros out Hs. induction Hs as [|x out Hs IH Hx]; intros i a b Ha Hb.
  - by rewrite lookup_nil in Ha.
  - destruct i as [|i]; cbn in Ha, Hb.
    + injection Ha as ->. destruct out as [|y out]; [done|].
      cbn in Hb. injection Hb as ->. by apply HdRel_inv in Hx.
    + by apply (IH i a b).
Qed.

Lemma text_of_app l1 l2 :
  text_of (l1 ++ l2) = String.append (text_of l1) (text_of l2).
Proof.
  induction l1 as [|x l1 IH]; [reflexivity|].
  change (String.append (word x) (text_of (l1 ++ l2))
          = String.append (String.append (word x) (text_of l1)) (text_of l2)).
  by rewrite IH, append_assoc.
Qed.

Lemma text_of_singleton c : text_of [c] = word c.
Proof. apply append_nil_r. Qed.

Lemma head_snoc_snoc {A : Type} (l : list A) c e :
  head ((l ++ [c]) ++ [e]) = head (l ++ [c]).
Proof. by destruct l. Qed.

Lemma consecutive_from_text rest : forall merged c,
  let st := fold_left consecutive_typed rest (merged, c) in
  text_of (st.1 ++ [st.2]) = text_of (merged ++ c :: rest)
  /\ length (st.1 ++ [st.2]) <= length (merged ++ c :: rest)
  /\ start <$> head (st.1 ++ [st.2]) = start <$> head (merged ++ [c])
  /\ end_ <$> last (st.1 ++ [st.2]) = end_ <$> last (c :: rest).
Proof.
  induction rest as [|e rest IH]; intros merged c; cbn [fold_left].
  - cbn [fst snd]. rewrite last_snoc. done.
  - assert (consecutive_typed (merged, c) e
            = if (String.eqb (type e) (type c) && (start e =? end_ c)%Z)%bool
              then (merged, fused c e) else (merged ++ [c], e)) as ->
      by reflexivity.
    destruct (String.eqb (type e) (type c) && (start e =? end_ c)%Z).
    + destruct (IH merged (fused c e)) as (Ht & Hl & Hh & He).
      split; [|split; [|split]].
      * rewrite Ht. rewrite !text_of_app. f_equal.
        change (String.append (String.append (word c) (word e)) (text_of rest)
                = String.append (word c) (String.append (word e) (text_of rest))).
        apply append_assoc.
      * etrans; [exact Hl|]. rewrite !length_app. cbn. lia.
      * rewrite Hh. by destruct merged.
      * rewrite He. by destruct rest.
    + destruct (IH (merged ++ [c]) e) as (Ht & Hl & Hh & He).
      split; [|split; [|split]].
      * rewrite Ht. by rewrite <- app_assoc.
      * etrans; [exact Hl|]. by rewrite <- app_assoc.
      * rewrite Hh. apply (f_equal (fmap start)), head_snoc_snoc.
      * rewrite He. done.
Qed.

(** X2: [merge_consecutive_entities] loses no text and keeps the
    extent of its input.  The words of the output records, read one
    after the other, are the words of the input records read one after
    the other; the output has at most as many records as the input, and
    one at least when the input has one; it starts where the first
    input record starts and ends where the last one ends. *)
Theorem merge_consecutive_keeps_text_and_extent (l : list Entity) :
  exists out,
    merge_consecutive_entities (entity_dict <$> l) = Ok (entity_dict <$> out)
    /\ text_of out = text_of l
    /\ length out <= length l
    /\ (out = [] <-> l = [])
    /\ start <$> head out = start <$> head l
    /\ end_ <$> last out = end_ <$> last l.
Proof.
  exists (merge_consecutive_of l). split; [apply merge_consecutive_typed|].
  destruct l as [|first rest]; [done|].
  destruct (consecutive_from_text rest [] first) as (Ht & Hl & Hh & He).
  cbn [merge_consecutive_of].
  repeat split; try done.
  intros H. by apply app_nil in H as [_ ?].
Qed.

Lemma consecutive_from_unfusable rest : forall merged c,
  Sorted not_fusable (c :: rest) ->
  let st := fold_left consecutive_typed rest (merged, c) in
  st.1 ++ [st.2] = merged ++ c :: rest.
Proof.
  induction rest as [|e rest IH]; intros merged c Hs; cbn [fold_left]; [done|].
  apply Sorted_inv in Hs as [Hs Hce]. apply HdRel_inv in Hce.
  assert (consecutive_typed (merged, c) e
          = if (String.eqb (type e) (type c) && (start e =? end_ c)%Z)%bool
            then (merged, fused c e) else (merged ++ [c], e)) as ->
    by reflexivity.
  destruct (String.eqb (type e) (type c) && (start e =? end_ c)%Z) eqn:E.
  - by apply fusable_pair_test in E.
  - rewrite (IH (merged ++ [c]) e Hs). by rewrite <- app_assoc.
Qed.

(** X3: a list of records in which no record has the category of the
    record before it and starts where that record ends is returned by
    [merge_consecutive_entities] as it is: same records, same order,
    every field unchanged.  Nothing is required of the order of the
    spans. *)
Theorem merge_consecutive_keeps_unfusable (l : list Entity) :
  (forall i a b, l !! i = Some a -> l !! S i = Some b ->
     ~ (type b = type a /\ start b = end_ a)) ->
  merge_consecutive_entities (entity_dict <$> l) = Ok (entity_dict <$> l).
Proof.
  intros H. rewrite merge_consecutive_typed. do 2 f_equal.
  assert (Sorted not_fusable l) as Hs.
  { induction l as [|x l IH]; [constructor|].
    constructor.
    - apply IH. intros i a b Ha Hb. by apply (H (S i) a b).
    - destruct l as [|y l]; constructor. by apply (H 0 x y). }
  destruct l as [|first rest]; [done|].
  by apply (consecutive_from_unfusable rest [] first).
Qed.

Lemma merge_consecutive_keeps_unfusable_witness :
  merge_consecutive_entities (entity_dict <$> unsorted_pair)
  = Ok (entity_dict <$> unsorted_pair).
Proof.
  apply (merge_consecutive_keeps_unfusable unsorted_pair).
  intros [|[|i]] a b Ha Hb; cbn in Ha, Hb; try done.
  injection Ha as <-. injection Hb as <-. cbn. intros [_ ?]. lia.
Defined.

(** X4: records whose spans are non-empty, in ascending order and
    disjoint (each ends no later than the next one starts) go through
    [merge_entities] one by one: the output has one record per input
    record, in the same order, with the same word, span, category and
    score, and the input's explanation as its explanation. *)
Theorem merge_entities_keeps_disjoint_spans (l : list Entity) :
  Forall nonempty_span l ->
  StronglySorted before l ->
  merge_entities (prediction_of <$> l) = Ok (entity_dict <$> l).
Proof.
  intros Hne Hs. rewrite merge_entities_typed.
  rewrite sort_chain_id by done. by rewrite sweep_id.
Qed.

Lemma merge_entities_keeps_disjoint_spans_witness :
  merge_entities (prediction_of <$> scenario_apart)
  = Ok (entity_dict <$> scenario_apart).
Proof.
  apply (merge_entities_keeps_disjoint_spans scenario_apart).
  - spans_ok.
  - repeat constructor; unfold before; cbn; lia.
Defined.

(** ** [merge_entities]: the keys it reads *)

Lemma flatten_superset d e : prediction_of e ⊆ d -> flatten d = Ok e.
Proof.
  intros Hd.
  assert (forall k v, prediction_of e !! k = Some v -> d !! k = Some v) as H.
  { intros k v Hk. by eapply lookup_weaken. }
  unfold flatten, get_str, get_int, get_float, getitem.
  rewrite (H "word" (VStr (word e))) by (by destruct e).
  rewrite (H "start" (VInt (start e))) by (by destruct e).
  rewrite (H "end" (VInt (end_ e))) by (by destruct e).
  rewrite (H "entity_type" (VStr (type e))) by (by destruct e).
  rewrite (H "score" (VFloat (score e))) by (by destruct e).
  rewrite (H "analysis_explanation"
             (VObj {| textual_explanation := explanation e |}))
    by (by destruct e).
  by destruct e.
Qed.

Lemma mapM_result_Forall2 {A B : Type} (f : A -> result B) l k :
  Forall2 (fun x y => f x = Ok y) l k -> mapM f l = Ok k.
Proof.
  induction 1 as [|x y l k Hxy _ IH]; [reflexivity|].
  cbn [mapM]. rewrite Hxy. cbn. rewrite IH. reflexivity.
Qed.

(** X5: [merge_entities] reads six keys of each prediction and nothing
    else.  Predictions that carry further entries give the output that
    the same predictions give without them; no further entry reaches
    the output. *)
Theorem merge_entities_ignores_other_keys
    (ds : list (gmap string value)) (ps : list Entity) :
  Forall2 (fun d p => prediction_of p ⊆ d) ds ps ->
  merge_entities ds = merge_entities (prediction_of <$> ps)
  /\ merge_entities ds = Ok (entity_dict <$> sweep (py_sort key_lt ps)).
Proof.
  intros H. rewrite merge_entities_typed. split; unfold merge_entities;
    rewrite (mapM_result_Forall2 flatten ds ps);
    first [ reflexivity
          | eapply Forall2_impl; [exact H|]; apply flatten_superset ].
Qed.

Lemma merge_entities_ignores_other_keys_witness :
  merge_entities [annotated_prediction]
  = merge_entities
      (prediction_of <$> [mkEntity "Ann" 0 3 "PERSON" 0.9%float "name pattern"])
  /\ merge_entities [annotated_prediction]
     = Ok (entity_dict <$>
             sweep (py_sort key_lt
                      [mkEntity "Ann" 0 3 "PERSON" 0.9%float "name pattern"])).
Proof.
  apply (merge_entities_ignores_other_keys [annotated_prediction]
           [mkEntity "Ann" 0 3 "PERSON" 0.9%float "name pattern"]).
  repeat constructor. by apply insert_subseteq.
Defined.

Lemma flatten_missing_key e k :
  k ∈ input_keys -> flatten (delete k (prediction_of e)) = Err (KeyError k).
Proof.
  unfold input_keys. intros Hk. destruct e.
  repeat (apply elem_of_cons in Hk as [->|Hk]; [reflexivity|]).
  by apply elem_of_nil in Hk.
Qed.

Lemma mapM_result_first_err {A B : Type} (f : A -> result B) pre x post err :
  Forall (fun y => exists b, f y = Ok b) pre -> f x = Err err ->
  mapM f (pre ++ x :: post) = Err err.
Proof.
  intros Hpre Hx. induction Hpre as [|y pre [b Hy] _ IH]; cbn [app mapM].
  - by rewrite Hx.
  - rewrite Hy. cbn. by rewrite IH.
Qed.

(** X6: a prediction that lacks one of the six keys makes
    [merge_entities] raise [KeyError] with that key.  When the
    predictions before it are complete, the call ends with this
    exception whatever follows in the list, and returns no record. *)
Theorem merge_entities_missing_key
    (pre : list Entity) (p : Entity) (post : list (gmap string value))
    (k : string) :
  k ∈ input_keys ->
  merge_entities ((prediction_of <$> pre) ++ delete k (prediction_of p) :: post)
  = Err (KeyError k).
Proof.
  intros Hk. unfold merge_entities.
  rewrite (mapM_result_first_err flatten _ _ _ (KeyError k)); [done| |].
  - apply Forall_fmap, Forall_forall. intros e _. exists e.
    apply flatten_prediction_of.
  - by apply flatten_missing_key.
Qed.

Lemma merge_entities_missing_key_witness :
  merge_entities
    ((prediction_of <$> scenario_overlap)
     ++ delete "score" (prediction_of (mkEntity "x" 1 2 "DATE" 0.5%float "rule"))
     :: [])
  = Err (KeyError "score").
Proof.
  apply (merge_entities_missing_key scenario_overlap
           (mkEntity "x" 1 2 "DATE" 0.5%float "rule") [] "score").
  unfold input_keys. set_solver.
Defined.

(** ** [merge_consecutive_entities]: the keys it reads *)

Lemma foldM_result_err {S A : Type} (body : S -> A -> result S) s x l err :
  body s x = Err err -> foldM body s (x :: l) = Err err.
Proof. intros H. cbn [foldM]. by rewrite H. Qed.

(** X7: [merge_consecutive_entities] reads the keys of a record only
    when it compares it with its neighbour.  A dictionary without the
    key ['type'] is returned as it is when it is the only entry of the
    list; as the second entry it makes the call raise [KeyError]
    with ['type'], whatever the first entry and the rest of the list
    are. *)
Theorem merge_consecutive_missing_type
    (d first : gmap string value) (rest : list (gmap string value)) :
  d !! "type" = None ->
  merge_consecutive_entities [d] = Ok [d]
  /\ merge_consecutive_entities (first :: d :: rest) = Err (KeyError "type").
Proof.
  intros Hd. split; [reflexivity|].
  unfold merge_consecutive_entities.
  rewrite (foldM_result_err consecutive_step _ _ _ (KeyError "type")); [done|].
  unfold consecutive_step, fusable, get_str, getitem. cbn [snd].
  by rewrite Hd.
Qed.

Lemma merge_consecutive_missing_type_witness :
  merge_consecutive_entities [annotated_prediction] = Ok [annotated_prediction]
  /\ merge_consecutive_entities
       (annotated_prediction :: annotated_prediction :: [])
     = Err (KeyError "type").
Proof.
  apply (merge_consecutive_missing_type annotated_prediction
           annotated_prediction []).
  reflexivity.
Defined.

(** ** [merge_entities]: where the output comes from *)

Lemma join_snoc sep ws w :
  ws <> [] ->
  join sep (ws ++ [w]) = String.append (join sep ws) (String.append sep w).
Proof.
  induction ws as [|x ws IH]; [done|]. intros _.
  destruct ws as [|y ws].
  - reflexivity.
  - change ((x :: y :: ws) ++ [w]) with (x :: y :: (ws ++ [w])).
    rewrite (join_cons2 sep x y (ws ++ [w])), (join_cons2 sep x y ws).
    change (y :: ws ++ [w]) with ((y :: ws) ++ [w]).
    rewrite IH by done. by rewrite !append_assoc.
Qed.

Lemma current_from_first ps e :
  e ∈ ps -> current_from ps (first_of e) {[ explanation e ]}.
Proof.
  intros He. repeat split.
  - by exists e.
  - by exists e.
  - exists [word e]. repeat split; [done|].
    intros w ->%list_elem_of_singleton. by exists e.
  - intros x ->%elem_of_singleton. by exists e.
Qed.

Lemma current_from_absorb ps c ex e :
  e ∈ ps -> current_from ps c ex ->
  current_from ps (absorb c e) (ex ∪ {[ explanation e ]}).
Proof.
  intros He (Hs & Hq & (ws & Hws & Hw & Hwin) & Hex).
  assert (forall x, x ∈ ex ∪ {[ explanation e ]} ->
                    exists p, p ∈ ps /\ explanation p = x) as Hex'.
  { intros x [Hx| ->%elem_of_singleton]%elem_of_union; [by apply Hex|].
    by exists e. }
  unfold absorb. destruct (PrimFloat.ltb (current_score c) (score e)).
  - split; [exact Hs|]. split; [by exists e|]. split; [|exact Hex'].
    exists (ws ++ [word e]). cbn. split; [by destruct ws|]. split.
    + rewrite join_snoc by done. by rewrite Hw.
    + intros w [Hin| ->%list_elem_of_singleton]%elem_of_app;
        [by apply Hwin|by exists e].
  - split; [exact Hs|]. split; [exact Hq|]. split; [by exists ws|exact Hex'].
Qed.

Lemma taken_from_emit ps c ex :
  current_from ps c ex -> taken_from ps (emit c ex).
Proof.
  intros (Hs & Hq & Hw & Hex). repeat split; cbn; try done.
  exists (sorted_set ex). repeat split.
  - apply py_sort_strings_sorted.
  - unfold sorted_set. rewrite py_sort_perm. apply NoDup_elements.
  - intros x Hx%elem_of_sorted_set. by apply Hex.
Qed.

Lemma sweep_from_taken ps rest : forall merged c ex,
  (forall e, e ∈ rest -> e ∈ ps) ->
  current_from ps c ex ->
  Forall (taken_from ps) merged ->
  Forall (taken_from ps)
    (close_last (fold_left sweep_step rest (merged, Some (c, ex))))
  /\ 1 <= length (close_last
                    (fold_left sweep_step rest (merged, Some (c, ex))))
       <= length merged + 1 + length rest.
Proof.
  induction rest as [|a rest IH]; intros merged c ex Hin Hc Hm;
    cbn [fold_left].
  - unfold close_last; cbn [fst snd]. split.
    + apply Forall_app. split; [done|].
      apply Forall_singleton. by apply taken_from_emit.
    + rewrite length_app. cbn. lia.
  - rewrite sweep_step_some.
    assert (a ∈ ps) as Ha by (apply Hin; left).
    assert (forall e, e ∈ rest -> e ∈ ps) as Hin'
      by (intros e He; apply Hin; by right).
    destruct (start a <? current_end c)%Z.
    + destruct (IH merged (absorb c a) (ex ∪ {[ explanation a ]}))
        as [Hf Hl]; [done|by apply current_from_absorb|done|].
      split; [done|]. cbn [length]. lia.
    + destruct (IH (merged ++ [emit c ex]) (first_of a) {[ explanation a ]})
        as [Hf Hl]; [done|by apply current_from_first| |].
      * apply Forall_app. split; [done|].
        apply Forall_singleton. by apply taken_from_emit.
      * split; [done|]. rewrite length_app in Hl. cbn in Hl |- *. lia.
Qed.

Lemma sweep_taken l :
  Forall (taken_from l) (sweep l)
  /\ length (sweep l) <= length l
  /\ (sweep l = [] <-> l = []).
Proof.
  destruct l as [|e rest]; [by repeat split|].
  rewrite sweep_cons.
  destruct (sweep_from_taken (e :: rest) rest [] (first_of e)
              {[ explanation e ]}) as [Hf Hl].
  - intros x Hx. by right.
  - apply current_from_first. left.
  - constructor.
  - cbn [length] in Hl |- *. repeat split; [done|lia| |done].
    intros H. rewrite H in Hl. cbn in Hl. lia.
Qed.

Lemma taken_from_perm l l' o : l ≡ₚ l' -> taken_from l o -> taken_from l' o.
Proof.
  intros Hp ((p & Hp1 & Hp2) & (q & Hq1 & Hq2) & (ws & ? & ? & Hws)
             & (xs & ? & ? & ? & Hxs)).
  repeat split.
  - exists p. by rewrite <- Hp.
  - exists q. by rewrite <- Hp.
  - exists ws. repeat split; [done..|].
    intros w Hw. destruct (Hws w Hw) as (r & ? & ?). exists r.
    by rewrite <- Hp.
  - exists xs. repeat split; [done..|].
    intros x Hx. destruct (Hxs x Hx) as (r & ? & ?). exists r.
    by rewrite <- Hp.
Qed.

(** X8: [merge_entities] invents nothing.  Every record of its output
    starts where some input record starts; its end, category and score
    are the end, category and score of one single input record; its
    word is made of input words separated by single spaces; its
    explanation is the join with [" and "] of input explanations, each
    once and in ascending order.  The output has at most as many
    records as the input, and is empty only for the empty input. *)
Theorem merge_entities_output_taken_from_input (ps : list Entity) :
  exists out,
    merge_entities (prediction_of <$> ps) = Ok (entity_dict <$> out)
    /\ Forall (taken_from ps) out
    /\ length out <= length ps
    /\ (out = [] <-> ps = []).
Proof.
  exists (sweep (py_sort key_lt ps)). split; [apply merge_entities_typed|].
  destruct (sweep_taken (py_sort key_lt ps)) as (Hf & Hl & He).
  pose proof (py_sort_perm key_lt ps) as Hp.
  repeat split.
  - eapply Forall_impl; [exact Hf|]. intros o. by apply taken_from_perm.
  - by rewrite <- (Permutation_length Hp).
  - intros H%He. rewrite H in Hp. by apply Permutation_nil_l in Hp.
  - intros ->. reflexivity.
Qed.

(** ** [merge_entities]: the explanations of a cluster *)

Lemma explained_by_emit c ex y : y ∈ ex -> explained_by (emit c ex) y.
Proof.
  intros Hy. exists (sorted_set ex). split; [reflexivity|].
  by apply elem_of_sorted_set.
Qed.

(** A record of the current cluster, or of a closed one, stays covered
    by a record that carries its explanation. *)
Lemma sweep_from_explained rest : forall merged c ex x y,
  Forall nonempty_span rest ->
  (exists o, o ∈ merged /\ covers o x /\ explained_by o y)
  \/ ((current_start c <= x < current_end c)%Z /\ y ∈ ex
      /\ Forall (fun e => x <= start e)%Z rest) ->
  exists o,
    o ∈ close_last (fold_left sweep_step rest (merged, Some (c, ex)))
    /\ covers o x /\ explained_by o y.
Proof.
  induction rest as [|a rest IH]; intros merged c ex x y Hne Hx;
    cbn [fold_left].
  - unfold close_last; cbn. destruct Hx as [(o & Ho & Hc)|(Hc & Hy & _)].
    + exists o. split; [|done]. apply elem_of_app. by left.
    + exists (emit c ex). split; [|split; [done|by apply explained_by_emit]].
      apply elem_of_app. right. by apply list_elem_of_singleton.
  - rewrite sweep_step_some.
    apply Forall_cons in Hne as [Hane Hne]. unfold nonempty_span in Hane.
    destruct (Z.ltb_spec (start a) (current_end c)) as [Hov|Hov].
    + apply IH; [done|]. destruct Hx as [Hx|(Hc & Hy & Hle)]; [by left|right].
      apply Forall_cons in Hle as [Hxa Hle].
      split; [|split; [|done]].
      * rewrite absorb_start. destruct (absorb_end c a) as [-> | ->]; lia.
      * apply elem_of_union. by left.
    + apply IH; [done|]. left. destruct Hx as [(o & Ho & Hc)|(Hc & Hy & _)].
      * exists o. split; [|done]. apply elem_of_app. by left.
      * exists (emit c ex).
        split; [|split; [done|by apply explained_by_emit]].
        apply elem_of_app. right. by apply list_elem_of_singleton.
Qed.

Lemma sweep_from_explained_rest rest : forall merged c ex,
  StronglySorted start_le rest ->
  Forall nonempty_span rest ->
  Forall (fun e => current_start c <= start e)%Z rest ->
  forall e, e ∈ rest ->
  exists o,
    o ∈ close_last (fold_left sweep_step rest (merged, Some (c, ex)))
    /\ covers o (start e) /\ explained_by o (explanation e).
Proof.
  induction rest as [|a rest IH]; intros merged c ex Hs Hne Hlo e He;
    [by apply elem_of_nil in He|].
  apply StronglySorted_cons in Hs as [Ha Hs].
  pose proof Hne as Hne'. apply Forall_cons in Hne' as [Hane Hner].
  apply Forall_cons in Hlo as [Halo Hlo].
  unfold nonempty_span in Hane.
  apply elem_of_cons in He as [->|He]; cbn [fold_left];
    rewrite sweep_step_some.
  - destruct (Z.ltb_spec (start a) (current_end c)) as [Hov|Hov].
    + apply sweep_from_explained; [done|]. right.
      split; [|split; [|exact Ha]].
      * rewrite absorb_start. destruct (absorb_end c a) as [-> | ->]; lia.
      * apply elem_of_union. right. by apply elem_of_singleton.
    + apply sweep_from_explained; [done|]. right.
      split; [cbn; lia|]. split; [by apply elem_of_singleton|exact Ha].
  - destruct (Z.ltb_spec (start a) (current_end c)) as [Hov|Hov].
    + apply IH; try done. by rewrite absorb_start.
    + apply IH; try done.
Qed.

Lemma sweep_explained l e :
  StronglySorted start_le l -> Forall nonempty_span l -> e ∈ l ->
  exists o, o ∈ sweep l /\ covers o (start e)
            /\ explained_by o (explanation e).
Proof.
  destruct l as [|a rest]; intros Hs Hne He; [by apply elem_of_nil in He|].
  rewrite sweep_cons.
  apply StronglySorted_cons in Hs as [Ha Hs].
  apply Forall_cons in Hne as [Hane Hne]. unfold nonempty_span in Hane.
  apply elem_of_cons in He as [->|He].
  - apply sweep_from_explained; [done|]. right.
    split; [cbn; lia|]. split; [by apply elem_of_singleton|exact Ha].
  - apply sweep_from_explained_rest; try done.
Qed.

(** X9: no explanation is lost by [merge_entities].  When every input
    span is non-empty ([start < end]), each input record has an output
    record whose range contains its start and whose explanation joins,
    among others, the explanation of that input record. *)
Theorem merge_entities_keeps_explanations (ps : list Entity) :
  Forall nonempty_span ps ->
  exists out,
    merge_entities (prediction_of <$> ps) = Ok (entity_dict <$> out)
    /\ forall p, p ∈ ps ->
         exists o, o ∈ out /\ covers o (start p)
                   /\ explained_by o (explanation p).
Proof.
  intros Hne. exists (sweep (py_sort key_lt ps)).
  split; [apply merge_entities_typed|]. intros p Hp.
  apply sweep_explained.
  - apply sort_by_start.
  - by rewrite py_sort_perm.
  - by rewrite py_sort_perm.
Qed.

Lemma merge_entities_keeps_explanations_witness :
  exists out,
    merge_entities (prediction_of <$> scenario_overlap)
    = Ok (entity_dict <$> out)
    /\ forall p, p ∈ scenario_overlap ->
         exists o, o ∈ out /\ covers o (start p)
                   /\ explained_by o (explanation p).
Proof.
  apply (merge_entities_keeps_explanations scenario_overlap). spans_ok.
Defined.

(** ** [summarize_pii] *)

Lemma word_prediction_of text r :
  word_prediction text r = prediction_of (record_of text r).
Proof. by destruct r as [? ? ? ? []]. Qed.

Lemma summarize_pii_typed rs text :
  summarize_pii rs text
  = Ok (entity_dict <$>
          merge_consecutive_of (sweep (py_sort key_lt (record_of text <$> rs)))).
Proof.
  unfold summarize_pii.
  assert (word_prediction text <$> rs
          = prediction_of <$> (record_of text <$> rs)) as ->.
  { rewrite <- list_fmap_compose. apply list_fmap_ext.
    intros i r _. apply word_prediction_of. }
  rewrite merge_entities_typed, result_bind_ok.
  apply merge_consecutive_typed.
Qed.

Lemma merge_consecutive_of_length l :
  length (merge_consecutive_of l) <= length l
  /\ (merge_consecutive_of l = [] <-> l = []).
Proof.
  destruct l as [|first rest]; [done|].
  destruct (consecutive_from_text rest [] first) as (_ & Hl & _).
  split; [exact Hl|]. split; [|done].
  cbn [merge_consecutive_of]. intros H. by apply app_nil in H as [_ ?].
Qed.

(** X10: [summarize_pii] raises no exception, whatever the offsets of
    the detections and whatever the text: offsets outside the text are
    clipped by the slice, and every key that the two mergers read is
    present.  The result has at most one record per detection, and is
    empty only when there is no detection. *)
Theorem summarize_pii_never_raises
    (presidio_results : list RecognizerResult.t) (text : string) :
  exists out,
    summarize_pii presidio_results text = Ok (entity_dict <$> out)
    /\ length out <= length presidio_results
    /\ (out = [] <-> presidio_results = []).
Proof.
  eexists. split; [apply summarize_pii_typed|].
  set (l := record_of text <$> presidio_results).
  destruct (merge_consecutive_of_length (sweep (py_sort key_lt l)))
    as [Hl1 He1].
  destruct (sweep_taken (py_sort key_lt l)) as (_ & Hl2 & He2).
  pose proof (py_sort_perm key_lt l) as Hp.
  assert (length l = length presidio_results) as Hl3
    by (unfold l; apply length_fmap).
  split; [|split].
  - rewrite <- Hl3, <- (Permutation_length Hp). lia.
  - intros H%He1%He2. rewrite H in Hp. apply Permutation_nil_l in Hp.
    unfold l in Hp. symmetry in Hp. by apply fmap_nil_inv in Hp.
  - intros ->. reflexivity.
Qed.

Lemma Sorted_lookup_succ {A : Type} (R : relation A) l i a b :
  Sorted R l -> l !! i = Some a -> l !! S i = Some b -> R a b.
Proof.
  intros Hs. revert i. induction Hs as [|x l Hs IH Hx]; intros i Ha Hb.
  - by rewrite lookup_nil in Ha.
  - destruct i as [|i]; cbn in Ha, Hb.
    + injection Ha as ->. destruct l as [|y l]; [done|].
      cbn in Hb. injection Hb as ->. by apply HdRel_inv in Hx.
    + by apply (IH i).
Qed.

Lemma merge_consecutive_of_not_fusable l :
  Sorted not_fusable (merge_consecutive_of l).
Proof.
  destruct l as [|first rest]; [constructor|].
  apply (consecutive_from_not_fusable rest [] first). repeat constructor.
Qed.

(** The adjacency merger keeps every point of a non-empty input span
    in the range of an output record. *)
Lemma consecutive_from_covers rest : forall merged c x,
  Forall nonempty_span rest -> nonempty_span c ->
  (exists o, o ∈ merged /\ covers o x)
  \/ covers c x
  \/ (exists e, e ∈ rest /\ covers e x) ->
  exists o,
    o ∈ (fold_left consecutive_typed rest (merged, c)).1
        ++ [(fold_left consecutive_typed rest (merged, c)).2]
    /\ covers o x.
Proof.
  induction rest as [|e rest IH]; intros merged c x Hne Hc Hx;
    cbn [fold_left].
  - cbn [fst snd]. destruct Hx as [(o & Ho & Hox)|[Hcx|(e & He & _)]].
    + exists o. split; [|done]. apply elem_of_app. by left.
    + exists c. split; [|done]. apply elem_of_app. right.
      by apply list_elem_of_singleton.
    + by apply elem_of_nil in He.
  - apply Forall_cons in Hne as [Hene Hne].
    assert (consecutive_typed (merged, c) e
            = if (String.eqb (type e) (type c) && (start e =? end_ c)%Z)%bool
              then (merged, fused c e) else (merged ++ [c], e)) as ->
      by reflexivity.
    unfold nonempty_span in Hene, Hc.
    destruct (String.eqb (type e) (type c) && (start e =? end_ c)%Z) eqn:E.
    + apply fusable_pair_test in E as [_ E].
      apply IH; [done|unfold nonempty_span; cbn; lia|].
      destruct Hx as [Hx|[Hcx|(e' & [->|He']%elem_of_cons & Hex)]].
      * by left.
      * right. left. unfold covers in *. cbn. lia.
      * right. left. unfold covers in *. cbn. lia.
      * right. right. by exists e'.
    + apply IH; [done|done|].
      destruct Hx as [(o & Ho & Hox)|[Hcx|(e' & [->|He']%elem_of_cons & Hex)]].
      * left. exists o. split; [|done]. apply elem_of_app. by left.
      * left. exists c. split; [|done]. apply elem_of_app. right.
        by apply list_elem_of_singleton.
      * right. by left.
      * right. right. by exists e'.
Qed.

Lemma merge_consecutive_of_covers l e :
  Forall nonempty_span l -> e ∈ l ->
  forall x, covers e x -> exists o, o ∈ merge_consecutive_of l /\ covers o x.
Proof.
  destruct l as [|first rest]; intros Hne He x Hx;
    [by apply elem_of_nil in He|].
  apply Forall_cons in Hne as [Hf Hne].
  apply (consecutive_from_covers rest [] first x Hne Hf).
  apply elem_of_cons in He as [->|He]; [by right; left|].
  right. right. by exists e.
Qed.

(** X11: the records that [summarize_pii] returns for detections with
    [start < end] are non-empty spans in ascending order that do not
    overlap; two neighbours either have a gap between them or differ in
    category; and the start of every detection lies in the range of
    one of the records. *)
Theorem summarize_pii_output_spans
    (presidio_results : list RecognizerResult.t) (text : string) :
  Forall nonempty_result presidio_results ->
  exists out,
    summarize_pii presidio_results text = Ok (entity_dict <$> out)
    /\ Forall nonempty_span out
    /\ (forall i a b, out !! i = Some a -> out !! S i = Some b ->
          (end_ a <= start b)%Z
          /\ ~ (type b = type a /\ start b = end_ a))
    /\ (forall r, r ∈ presidio_results ->
          exists o, o ∈ out /\ covers o (RecognizerResult.start r)).
Proof.
  intros Hne. eexists. split; [apply summarize_pii_typed|].
  set (l := py_sort key_lt (record_of text <$> presidio_results)).
  assert (Forall nonempty_span l) as Hl.
  { unfold l. rewrite py_sort_perm. apply Forall_fmap.
    eapply Forall_impl; [exact Hne|]. by intros r Hr. }
  assert (StronglySorted start_le l) as Hs by apply sort_by_start.
  destruct (sweep_chain l Hs Hl) as [Hc Hcne].
  destruct (merge_consecutive_chain (sweep l) Hc Hcne) as [Hm Hmne].
  split; [exact Hmne|]. split.
  - intros i a b Ha Hb. split.
    + apply (StronglySorted_lookup before _ i (S i) a b Hm Ha Hb). lia.
    + apply (Sorted_lookup_succ not_fusable _ i a b
               (merge_consecutive_of_not_fusable _) Ha Hb).
  - intros r Hr.
    assert (record_of text r ∈ l) as Hin.
    { unfold l. rewrite py_sort_perm. by apply list_elem_of_fmap_2. }
    destruct (sweep_covers l _ Hs Hl Hin) as (o & Ho & Hox).
    apply (merge_consecutive_of_covers (sweep l) o Hcne Ho _ Hox).
Qed.

Lemma summarize_pii_output_spans_witness :
  exists out,
    summarize_pii sample_results "Mr. John Smith, Paris" = Ok (entity_dict <$> out)
    /\ Forall nonempty_span out
    /\ (forall i a b, out !! i = Some a -> out !! S i = Some b ->
          (end_ a <= start b)%Z
          /\ ~ (type b = type a /\ start b = end_ a))
    /\ (forall r, r ∈ sample_results ->
          exists o, o ∈ out /\ covers o (RecognizerResult.start r)).
Proof.
  apply (summarize_pii_output_spans sample_results "Mr. John Smith, Paris").
  repeat first [apply Forall_nil_2 | apply Forall_cons_2];
    unfold nonempty_result; cbn; lia.
Defined.

Lemma Sorted_from_lookup {A : Type} (R : relation A) l :
  (forall i a b, l !! i = Some a -> l !! S i = Some b -> R a b) ->
  Sorted R l.
Proof.
  induction l as [|x l IH]; intros H; [constructor|].
  constructor.
  - apply IH. intros i a b Ha Hb. by apply (H (S i) a b).
  - destruct l as [|y l]; constructor. by apply (H 0 x y).
Qed.

Lemma Sorted_before_strongly l :
  Sorted before l -> Forall nonempty_span l -> StronglySorted before l.
Proof.
  induction 1 as [|x l Hs IH Hx]; intros Hne; [constructor|].
  apply Forall_cons in Hne as [Hxne Hne].
  pose proof (IH Hne) as Hl. constructor; [done|].
  destruct Hx as [|y l Hxy]; [constructor|].
  apply StronglySorted_cons in Hl as [Hy _].
  apply Forall_cons in Hne as [Hyne _].
  constructor; [done|].
  eapply Forall_impl; [exact Hy|].
  unfold before, nonempty_span in *. cbn. intros; lia.
Qed.

Lemma merge_consecutive_of_unfusable l :
  Sorted not_fusable l -> merge_consecutive_of l = l.
Proof.
  destruct l as [|first rest]; intros Hs; [done|].
  by apply (consecutive_from_unfusable rest [] first).
Qed.

(** X12: detections with [start < end] that are given in ascending
    order, each ending no later than the next one starts, and of which
    no two neighbours both touch and have the same category, are
    returned by [summarize_pii] one record per detection, in the given
    order: the word is the stripped slice of the text, the span,
    category and score are those of the detection, and the explanation
    is its [textual_explanation]. *)
Theorem summarize_pii_keeps_separate_detections
    (presidio_results : list RecognizerResult.t) (text : string) :
  Forall nonempty_result presidio_results ->
  (forall i a b,
     presidio_results !! i = Some a -> presidio_results !! S i = Some b ->
     (RecognizerResult.end_ a <= RecognizerResult.start b)%Z
     /\ ~ (RecognizerResult.entity_type b = RecognizerResult.entity_type a
           /\ RecognizerResult.start b = RecognizerResult.end_ a)) ->
  summarize_pii presidio_results text
  = Ok (entity_dict <$> (record_of text <$> presidio_results)).
Proof.
  intros Hne Hnb. rewrite summarize_pii_typed. do 2 f_equal.
  set (l := record_of text <$> presidio_results).
  assert (forall i a b, l !! i = Some a -> l !! S i = Some b ->
            before a b /\ not_fusable a b) as Hl.
  { intros i a b Ha Hb. unfold l in Ha, Hb.
    apply list_lookup_fmap_Some in Ha as (ra & -> & Hra).
    apply list_lookup_fmap_Some in Hb as (rb & -> & Hrb).
    apply (Hnb i ra rb Hra Hrb). }
  assert (Forall nonempty_span l) as Hlne.
  { unfold l. apply Forall_fmap. eapply Forall_impl; [exact Hne|].
    by intros r Hr. }
  assert (StronglySorted before l) as Hs.
  { apply Sorted_before_strongly; [|done].
    apply Sorted_from_lookup. intros i a b Ha Hb. by apply (Hl i a b). }
  rewrite sort_chain_id by done. rewrite sweep_id by done.
  apply merge_consecutive_of_unfusable, Sorted_from_lookup.
  intros i a b Ha Hb. by apply (Hl i a b).
Qed.

Lemma summarize_pii_keeps_separate_detections_witness :
  summarize_pii separate_results "Ann Lee Rio"
  = Ok (entity_dict <$> (record_of "Ann Lee Rio" <$> separate_results)).
Proof.
  apply (summarize_pii_keeps_separate_detections separate_results
           "Ann Lee Rio").
  - repeat first [apply Forall_nil_2 | apply Forall_cons_2];
      unfold nonempty_result; cbn; lia.
  - intros [|[|[|i]]] a b Ha Hb; cbn in Ha, Hb; try done;
      injection Ha as <-; injection Hb as <-; cbn;
      (split; [lia|]); intros [? ?]; first [lia|congruence].
Defined.

(** ** The word of a detection *)

Lemma append_cons c a b :
  String.append (String c a) b = String c (String.append a b).
Proof. reflexivity. Qed.

Lemma occurs_in_trans a b c : occurs_in a b -> occurs_in b c -> occurs_in a c.
Proof.
  intros (p1 & q1 & ->) (p2 & q2 & ->).
  exists (String.append p2 p1), (String.append q1 q2).
  by rewrite !append_assoc.
Qed.

Lemma substring_prefix m s :
  exists post, s = String.append (String.substring 0 m s) post.
Proof.
  revert s. induction m as [|m IH]; intros s.
  - exists s. by destruct s.
  - destruct s as [|c s]; [by exists EmptyString|].
    destruct (IH s) as [post Hpost]. exists post.
    cbn [String.substring]. rewrite append_cons. by rewrite <- Hpost.
Qed.

Lemma substring_occurs n m s : occurs_in (String.substring n m s) s.
Proof.
  revert s. induction n as [|n IH]; intros s.
  - destruct (substring_prefix m s) as [post Hpost].
    exists EmptyString, post. exact Hpost.
  - destruct s as [|c s].
    + exists EmptyString, EmptyString. by destruct m.
    + destruct (IH s) as (pre & post & H).
      exists (String c pre), post. cbn [String.substring].
      rewrite append_cons. by rewrite <- H.
Qed.

Lemma slice_occurs s lo hi : occurs_in (slice s lo hi) s.
Proof. apply substring_occurs. Qed.

Lemma lstrip_head s c t : lstrip s = String c t -> isspace c = false.
Proof.
  induction s as [|x s IH]; [done|]. cbn [lstrip].
  destruct (isspace x) eqn:E; [exact IH|]. intros [= <- _]. exact E.
Qed.

Lemma lstrip_suffix s : exists pre, s = String.append pre (lstrip s).
Proof.
  induction s as [|x s [pre IH]]; [by exists EmptyString|].
  cbn [lstrip]. destruct (isspace x).
  - exists (String x pre). rewrite append_cons. by rewrite <- IH.
  - by exists EmptyString.
Qed.

Lemma list_ascii_of_append a b :
  list_ascii_of_string (String.append a b)
  = list_ascii_of_string a ++ list_ascii_of_string b.
Proof.
  induction a as [|c a IH]; [reflexivity|].
  rewrite append_cons. cbn [list_ascii_of_string app]. by rewrite IH.
Qed.

Lemma string_of_list_app l1 l2 :
  string_of_list_ascii (l1 ++ l2)
  = String.append (string_of_list_ascii l1) (string_of_list_ascii l2).
Proof.
  induction l1 as [|c l1 IH]; [reflexivity|].
  cbn [app string_of_list_ascii]. rewrite append_cons. by rewrite IH.
Qed.

Lemma string_rev_append a b :
  string_rev (String.append a b)
  = String.append (string_rev b) (string_rev a).
Proof.
  unfold string_rev.
  by rewrite list_ascii_of_append, rev_app_distr, string_of_list_app.
Qed.

Lemma string_rev_involutive s : string_rev (string_rev s) = s.
Proof.
  unfold string_rev.
  by rewrite list_ascii_of_string_of_list_ascii, rev_involutive,
    string_of_list_ascii_of_string.
Qed.

(** [strip s] with what was dropped on both sides. *)
Lemma strip_inside s :
  exists pre post,
    lstrip s = String.append (strip s) post
    /\ s = String.append pre (String.append (strip s) post).
Proof.
  destruct (lstrip_suffix s) as [pre Hpre].
  destruct (lstrip_suffix (string_rev (lstrip s))) as [q Hq].
  exists pre, (string_rev q).
  assert (lstrip s = String.append (strip s) (string_rev q)) as Hu.
  { unfold strip. rewrite <- string_rev_append, <- Hq.
    by rewrite string_rev_involutive. }
  split; [exact Hu|]. by rewrite <- Hu.
Qed.

(** X13: the word that [summarize_pii] gives a detection is a piece of
    the text (the slice between the clipped offsets, without the white
    space at its ends): it occurs in the text, and when it is not empty
    neither its first nor its last character is white space. *)
Theorem summarize_pii_word_is_stripped_text
    (text : string) (r : RecognizerResult.t) :
  occurs_in (word (record_of text r)) text
  /\ (forall c t, word (record_of text r) = String c t -> isspace c = false)
  /\ (forall t c,
        word (record_of text r) = String.append t (String c EmptyString) ->
        isspace c = false).
Proof.
  cbn [word record_of].
  set (s := slice text _ _).
  destruct (strip_inside s) as (pre & post & Hu & Hs).
  split; [|split].
  - apply (occurs_in_trans _ s); [by exists pre, post|apply slice_occurs].
  - intros c t Hc. rewrite Hc, append_cons in Hu.
    by apply lstrip_head in Hu.
  - intros t c Hc.
    assert (lstrip (string_rev (lstrip s)) = String c (string_rev t)) as Hv.
    { apply (f_equal string_rev) in Hc. unfold strip in Hc.
      rewrite string_rev_involutive, string_rev_append in Hc. exact Hc. }
    by apply lstrip_head in Hv.
Qed.

(** ** [summarize_pii_batch]: the two mappings of a group *)

Lemma accumulated_same_categories ds c :
  is_Some ((fold_left accumulate ds (∅, ∅)).1 !! c)
  <-> is_Some ((fold_left accumulate ds (∅, ∅)).2 !! c).
Proof.
  rewrite accumulate_scores, accumulate_explanations.
  unfold scores_of, explanations_of.
  destruct (filter (fun r => RecognizerResult.entity_type r = c) ds);
    cbn; split; intros [? ?]; by eauto.
Qed.

(** X14: in the summary of a group, [avg_scores] and [explanation] have
    the same keys: every category with an average has a combined
    explanation and every category with an explanation has an average.
    Both mappings are empty exactly when the group has no detection. *)
Theorem batch_mappings_share_their_keys
    (set_iter : gset string -> list string) (item : DictAnalyzerResult.t) :
  exists s,
    summarize_item set_iter item = Ok s
    /\ dom (Summary.explanation s) = dom (Summary.avg_scores s)
    /\ (Summary.avg_scores s = ∅
        <-> concat (DictAnalyzerResult.recognizer_results item) = [])
    /\ (Summary.explanation s = ∅
        <-> concat (DictAnalyzerResult.recognizer_results item) = []).
Proof.
  eexists. split; [apply summarize_item_ok|].
  cbn [Summary.avg_scores Summary.explanation].
  set (ds := concat (DictAnalyzerResult.recognizer_results item)).
  assert (dom ((fun explanations => join " and " (set_iter explanations)) <$>
                 (accumulated (DictAnalyzerResult.recognizer_results item)).2)
          = dom (average <$>
                   (accumulated
                      (DictAnalyzerResult.recognizer_results item)).1)) as Hd.
  { apply set_eq. intros c. rewrite !dom_fmap, !elem_of_dom.
    rewrite accumulated_flat. symmetry. apply accumulated_same_categories. }
  assert (average <$> (accumulated
                         (DictAnalyzerResult.recognizer_results item)).1 = ∅
          <-> ds = []) as He.
  { rewrite fmap_empty_iff, accumulated_flat. fold ds. split.
    - intros H. destruct ds as [|r ds]; [done|].
      assert (is_Some ((fold_left accumulate (r :: ds) (∅, ∅)).1
                         !! RecognizerResult.entity_type r)) as [x Hx].
      { rewrite accumulate_scores. apply category_seen. exists r.
        split; [left|done]. }
      rewrite H in Hx. by rewrite lookup_empty in Hx.
    - by intros ->. }
  split; [exact Hd|]. split; [exact He|].
  rewrite <- He. rewrite <- !dom_empty_iff_L. by rewrite Hd.
Qed.

Lemma elem_of_explanations_of c ds x :
  x ∈ explanations_of c ds
  <-> exists r, r ∈ ds /\ RecognizerResult.entity_type r = c
                /\ textual_explanation (RecognizerResult.analysis_explanation r)
                   = x.
Proof.
  unfold explanations_of. rewrite list_elem_of_fmap. split.
  - intros (r & -> & [Hc Hr]%list_elem_of_filter). by exists r.
  - intros (r & Hr & Hc & <-). exists r. split; [done|].
    by apply list_elem_of_filter.
Qed.

(** X15: when sets are iterated element by element, the combined
    explanation of a category mentions every detection of the category:
    the explanation of each detection occurs in it.  When all the
    detections of the category carry the same explanation, the combined
    explanation is that string, however often it was seen. *)
Theorem batch_explanation_mentions_every_detection
    (set_iter : gset string -> list string)
    (set_iter_perm : forall s, set_iter s ≡ₚ elements s)
    (item : DictAnalyzerResult.t) (r : RecognizerResult.t) :
  r ∈ concat (DictAnalyzerResult.recognizer_results item) ->
  exists s x,
    summarize_item set_iter item = Ok s
    /\ Summary.explanation s !! RecognizerResult.entity_type r = Some x
    /\ occurs_in
         (textual_explanation (RecognizerResult.analysis_explanation r)) x
    /\ ((forall r',
           r' ∈ concat (DictAnalyzerResult.recognizer_results item) ->
           RecognizerResult.entity_type r' = RecognizerResult.entity_type r ->
           textual_explanation (RecognizerResult.analysis_explanation r')
           = textual_explanation (RecognizerResult.analysis_explanation r)) ->
        x = textual_explanation (RecognizerResult.analysis_explanation r)).
Proof.
  intros Hr.
  set (ds := concat (DictAnalyzerResult.recognizer_results item)) in *.
  set (c := RecognizerResult.entity_type r).
  set (y := textual_explanation (RecognizerResult.analysis_explanation r)).
  assert (y ∈ explanations_of c ds) as Hy
    by (apply elem_of_explanations_of; by exists r).
  eexists. exists (join " and " (set_iter (list_to_set (explanations_of c ds)))).
  split; [apply summarize_item_ok|]. cbn [Summary.explanation].
  split; [|split].
  - rewrite combined_explanation_lookup. fold ds.
    destruct (explanations_of c ds); [by apply elem_of_nil in Hy|done].
  - apply join_occurs. rewrite set_iter_perm, elem_of_elements.
    by apply elem_of_list_to_set.
  - intros Hsame.
    assert (list_to_set (explanations_of c ds) = ({[ y ]} : gset string))
      as ->.
    { apply set_eq. intros x.
      rewrite elem_of_list_to_set, elem_of_singleton. split.
      - intros (r' & Hr' & Hc & <-)%elem_of_explanations_of.
        by apply Hsame.
      - by intros ->. }
    pose proof (set_iter_perm {[ y ]}) as Hp.
    rewrite elements_singleton in Hp.
    apply Permutation_singleton_r in Hp. by rewrite Hp.
Qed.

Lemma batch_explanation_mentions_every_detection_witness :
  exists s x,
    summarize_item elements repeated_group = Ok s
    /\ Summary.explanation s !! "A" = Some x
    /\ occurs_in "pattern" x
    /\ ((forall r',
           r' ∈ concat (DictAnalyzerResult.recognizer_results repeated_group) ->
           RecognizerResult.entity_type r' = "A" ->
           textual_explanation (RecognizerResult.analysis_explanation r')
           = "pattern") ->
        x = "pattern").
Proof.
  apply (batch_explanation_mentions_every_detection elements
           (fun s => reflexivity _) repeated_group
           (detection "A" 0.8%float "pattern")).
  cbn. left.
Defined.

(** ** [merge_consecutive_entities]: a run of touching records *)

Lemma consecutive_from_run rest : forall c,
  Sorted fusable_pair (c :: rest) ->
  (fold_left consecutive_typed rest ([], c)).1 = []
  /\ type (fold_left consecutive_typed rest ([], c)).2 = type c.
Proof.
  induction rest as [|e rest IH]; intros c Hs; cbn [fold_left]; [done|].
  apply Sorted_inv in Hs as [Hs Hce]. apply HdRel_inv in Hce.
  assert (consecutive_typed ([], c) e
          = if (String.eqb (type e) (type c) && (start e =? end_ c)%Z)%bool
            then ([], fused c e) else ([] ++ [c], e)) as ->
    by reflexivity.
  pose proof Hce as Hce'. apply fusable_pair_test in Hce' as ->.
  destruct Hce as [Ht He].
  destruct (IH (fused c e)) as [H1 H2]; [|done].
  apply Sorted_inv in Hs as [Hs Her]. constructor; [done|].
  destruct Her as [|e' rest [Ht' He']]; constructor.
  split; cbn; congruence.
Qed.

(** X16: a list of records of one category in which each record starts
    where the one before it ends is fused by
    [merge_consecutive_entities] into a single record.  It has the
    category of the records, runs from the start of the first to the
    end of the last, and its word is their words one after the other. *)
Theorem merge_consecutive_fuses_a_run (first : Entity) (rest : list Entity) :
  (forall i a b,
     (first :: rest) !! i = Some a -> (first :: rest) !! S i = Some b ->
     type b = type a /\ start b = end_ a) ->
  exists o,
    merge_consecutive_entities (entity_dict <$> first :: rest)
    = Ok [entity_dict o]
    /\ type o = type first
    /\ start o = start first
    /\ Some (end_ o) = end_ <$> last (first :: rest)
    /\ word o = text_of (first :: rest).
Proof.
  intros Hrun.
  assert (Sorted fusable_pair (first :: rest)) as Hs
    by (by apply Sorted_from_lookup).
  destruct (consecutive_from_run rest first Hs) as [Hm Ht].
  destruct (consecutive_from_text rest [] first) as (Hw & _ & Hh & He).
  rewrite Hm in Hw, Hh, He. cbn [app] in Hw, Hh, He.
  exists (fold_left consecutive_typed rest ([], first)).2.
  split; [|split; [exact Ht|split; [|split]]].
  - rewrite merge_consecutive_typed. cbn [merge_consecutive_of].
    by rewrite Hm.
  - cbn in Hh. by injection Hh.
  - by rewrite <- He.
  - by rewrite <- Hw, text_of_singleton.
Qed.

Lemma merge_consecutive_fuses_a_run_witness :
  exists o,
    merge_consecutive_entities (entity_dict <$> scenario_run)
    = Ok [entity_dict o]
    /\ type o = "LOCATION"
    /\ start o = 0%Z
    /\ Some (end_ o) = Some 13%Z
    /\ word o = "New York City".
Proof.
  apply (merge_consecutive_fuses_a_run
           (mkEntity "New" 0 3 "LOCATION" 0.8%float "gazetteer")
           [ mkEntity " York" 3 8 "LOCATION" 0.6%float "gazetteer";
             mkEntity " City" 8 13 "LOCATION" 0.4%float "context words" ]).
  intros [|[|i]] a b Ha Hb; cbn in Ha, Hb; try done;
    injection Ha as <-; injection Hb as <-; by cbn.
Defined.

(** ** [merge_entities]: the order of the predictions *)

Lemma py_sort_distinct_starts l l' :
  l ≡ₚ l' ->
  (forall a b, a ∈ l -> b ∈ l -> start a = start b -> a = b) ->
  py_sort key_lt l = py_sort key_lt l'.
Proof.
  intros Hp Hd. apply (StronglySorted_unique_strong start_le).
  - intros a b Ha Hb Hab Hba. rewrite py_sort_perm in Ha, Hb.
    rewrite <- Hp in Hb.
    apply Hd; [done|done|]. unfold start_le in *. lia.
  - apply sort_by_start.
  - apply sort_by_start.
  - by rewrite !py_sort_perm.
Qed.

(** X17: when no two predictions start at the same offset, the output
    of [merge_entities] does not depend on the order in which the
    predictions are listed: the sort of line 27 brings every
    arrangement of them into the same order. *)
Theorem merge_entities_order_independent (ps ps' : list Entity) :
  ps ≡ₚ ps' ->
  (forall a b, a ∈ ps -> b ∈ ps -> start a = start b -> a = b) ->
  merge_entities (prediction_of <$> ps)
  = merge_entities (prediction_of <$> ps').
Proof.
  intros Hp Hd. rewrite !merge_entities_typed.
  by rewrite (py_sort_distinct_starts ps ps' Hp Hd).
Qed.

Lemma merge_entities_order_independent_witness :
  merge_entities (prediction_of <$> scenario_apart)
  = merge_entities (prediction_of <$> rev scenario_apart).
Proof.
  apply (merge_entities_order_independent scenario_apart
           (rev scenario_apart)).
  - apply Permutation_rev.
  - unfold scenario_apart. intros a b Ha Hb.
    repeat (apply elem_of_cons in Ha as [->|Ha]);
      try (by apply elem_of_nil in Ha);
      repeat (apply elem_of_cons in Hb as [->|Hb]);
      try (by apply elem_of_nil in Hb); cbn; intros H;
      first [reflexivity|discriminate H].
Defined.

(** ** The methods on shared records *)

(** X18: on a heap of objects, the result of the two methods depends on
    the contents of the records of the input list only, not on which
    of them are one and the same object.  Each method returns a
    reference to a list whose records hold what the function computes
    from the contents, and raises the exception that it raises. *)
Theorem store_methods_agree_with_values
    (h : gmap Store.loc Store.object) (entities : Store.loc)
    (ds : list (gmap string value)) :
  Store.list_at h entities ds ->
  match merge_entities ds with
  | Ok out =>
      exists q h',
        Store.merge_entities entities h = (Ok q, h')
        /\ Store.list_at h' q out
  | Err e => exists h', Store.merge_entities entities h = (Err e, h')
  end
  /\ match merge_consecutive_entities ds with
     | Ok out =>
         exists q h',
           Store.merge_consecutive_entities entities h = (Ok q, h')
           /\ Store.list_at h' q out
     | Err e =>
         exists h', Store.merge_consecutive_entities entities h = (Err e, h')
     end.
Proof.
  intros H. split.
  - by apply store_merge_entities_refines.
  - by apply store_merge_consecutive_refines.
Qed.

Lemma store_methods_agree_with_values_witness :
  match merge_entities [annotated_prediction; annotated_prediction] with
  | Ok out =>
      exists q h',
        Store.merge_entities 0 shared_heap = (Ok q, h')
        /\ Store.list_at h' q out
  | Err e => exists h', Store.merge_entities 0 shared_heap = (Err e, h')
  end
  /\ match merge_consecutive_entities
             [annotated_prediction; annotated_prediction] with
     | Ok out =>
         exists q h',
           Store.merge_consecutive_entities 0 shared_heap = (Ok q, h')
           /\ Store.list_at h' q out
     | Err e =>
         exists h', Store.merge_consecutive_entities 0 shared_heap = (Err e, h')
     end.
Proof.
  apply (store_methods_agree_with_values shared_heap 0
           [annotated_prediction; annotated_prediction]).
  exists [1; 1]. split; [reflexivity|]. by repeat constructor.
Defined.
